(** * batcave: the bounded asynchronous queue and the timeout wrapper

    A shallow embedding of [queue] and [timeout] of [build/batcave.esm.js],
    with the properties of the two primitives proved over it.

    The JavaScript event loop is modelled by explicit events.  Every piece of
    code that the source hands to the job queue ([Promise.resolve().then(run)],
    the three links of the promise chain built by [run], the timer callback
    of [setTimeout]) is one event; the calls a client makes ([push], [clear])
    and the settlement of a task's own promise are events too.  A state is
    the content of the closure's variables; an event that is not enabled in
    a state leaves it as it is, so that every list of events is a run.

    The events may come in any order, with one exception: the callables are
    called in the order in which [run] built their chains, as the job queue
    is first in, first out.  The runs of the model are thus at least the
    runs of the program, and what holds along every run of the model holds
    of the program.  The runs given as examples follow the order of the job
    queue throughout.

    Two components of a state are ghosts, kept to state the properties and
    read by no operation: the ticket that goes with a queued callable (the
    promise that its push returned) and the list of the errors thrown by
    [run].

    The asynchronous array methods and the iterator transform methods of
    the same file follow, each with a model of its own: for the first, what
    a call of the callback does and when its result settles; for the
    second, the generator objects in a heap, and [next] as a function of
    the heap that is given fuel. *)

From stdpp Require Import base option list sorting gmap sets strings pretty.
From Stdlib Require Import ZArith Lia.

(** ** Promises and their outcomes *)

(** The JavaScript values that tasks return or throw are opaque: a value
    is known by a number. *)
Definition value := nat.
Bind Scope nat_scope with value.

(** How a promise settles: [E] is the type of rejection reasons. *)
Inductive outcome (E : Type) : Type :=
| Fulfilled (v : value)
| Rejected (e : E).
Arguments Fulfilled {E} v.
Arguments Rejected {E} e.

Inductive pstate (E : Type) : Type :=
| Pending
| Settled (o : outcome E).
Arguments Pending {E}.
Arguments Settled {E} o.

(** [resolve]/[reject] of a promise: the first call settles it, later calls
    do nothing. *)
Definition settle_once {E} (o : outcome E) (p : pstate E) : pstate E :=
  match p with
  | Pending => Settled o
  | Settled o' => Settled o'
  end.

(** ** The queue *)

Module Queue.

(** A callable, known by reference only: the source keys its [WeakMap] and
    its [Set] by object identity. *)
Definition action := nat.
Bind Scope nat_scope with action.

(** The promise returned by a call of [push]: an index into the store of
    the promises that [push] has created so far. *)
Definition handle := nat.
Bind Scope nat_scope with handle.

(** The promise chain that [run] builds for a dequeued action has three
    links, each a job of its own:
    [.then(action)], [.then(resolve, reject)], [.finally(cleanup)]. *)
Inductive phase : Type :=
| Scheduled    (* [running.add] done, [.then(action)] not yet run *)
| Executing    (* the callable has been called, its result is pending *)
| Finishing    (* [resolve]/[reject] called, [cleanup] not yet run *)
| Done.        (* [cleanup] has run *)

#[global] Instance phase_eq_dec : EqDecision phase.
Proof. solve_decision. Defined.

Record chain : Type := Chain {
  ch_action : action;   (* [action] of the closure *)
  ch_ticket : handle;   (* ghost: the promise returned by the push that
                           queued this occurrence *)
  ch_handle : handle;   (* the promise whose [resolve] and [reject] the
                           closure got from [promises.get(action)] *)
  ch_phase : phase
}.

(** The variables of the closure created by [queue(concurrencyLimit)] and
    what the event loop holds for it.  The second component of a queue
    entry is ghost: the source array holds the callable only, and no
    operation below reads the ticket to decide anything. *)
Record state : Type := State {
  queue : list (action * handle);     (* [const queue = []] *)
  promises : gmap action handle;      (* [const promises = new WeakMap()] *)
  running : gset action;              (* [const running = new Set()] *)
  handles : list (pstate value);      (* the promises created by [push] *)
  chains : list chain;                (* the chains built by [run], oldest first *)
  triggers : nat;                     (* queued [Promise.resolve().then(run)] jobs *)
  thrown : list action                (* ghost: the uncaught
                                         "Missing promise callbacks" errors *)
}.

Definition init : state :=
  State [] ∅ ∅ [] [] 0 [].

(** [function queue(concurrencyLimit = 2)], exported as [asyncQueue]: the
    limit that the closure keeps and its variables at the start. *)
Definition asyncQueue (concurrencyLimit : option Z) : Z * state :=
  (default 2%Z concurrencyLimit, init).

Definition set_queue (q : list (action * handle)) (s : state) : state :=
  State q (promises s) (running s) (handles s) (chains s) (triggers s) (thrown s).
Definition set_promises (m : gmap action handle) (s : state) : state :=
  State (queue s) m (running s) (handles s) (chains s) (triggers s) (thrown s).
Definition set_running (r : gset action) (s : state) : state :=
  State (queue s) (promises s) r (handles s) (chains s) (triggers s) (thrown s).
Definition set_handles (hs : list (pstate value)) (s : state) : state :=
  State (queue s) (promises s) (running s) hs (chains s) (triggers s) (thrown s).
Definition set_chains (cs : list chain) (s : state) : state :=
  State (queue s) (promises s) (running s) (handles s) cs (triggers s) (thrown s).
Definition set_triggers (n : nat) (s : state) : state :=
  State (queue s) (promises s) (running s) (handles s) (chains s) n (thrown s).
Definition set_thrown (l : list action) (s : state) : state :=
  State (queue s) (promises s) (running s) (handles s) (chains s) (triggers s) l.

Definition set_phase (p : phase) (c : chain) : chain :=
  Chain (ch_action c) (ch_ticket c) (ch_handle c) p.

(** [function run()], lines 19-37, up to the point where the chain is
    handed to the job queue. *)
Definition run (k : Z) (s : state) : state :=
  if decide (k ≤ Z.of_nat (size (running s)))%Z then s
  else
    match queue s with
    | [] => s
    | (a, t) :: q =>
        let s := set_queue q s in
        match promises s !! a with
        | None => set_thrown (thrown s ++ [a]) s
        | Some h =>
            set_chains (chains s ++ [Chain a t h Scheduled])
              (set_running ({[a]} ∪ running s) s)
        end
    end.

(** [push(action)], lines 39-46: the new promise is the next index of the
    store. *)
Definition push (a : action) (s : state) : handle * state :=
  let h := length (handles s) in
  (h,
   set_triggers (S (triggers s))
     (set_queue (queue s ++ [(a, h)])
        (set_promises (<[a := h]> (promises s))
           (set_handles (handles s ++ [Pending]) s)))).

(** [clear: () => void (queue.length = 0)], line 47. *)
Definition clear (s : state) : state := set_queue [] s.

(** [running: () => new Set(running)], line 49: a copy. *)
Definition running_snapshot (s : state) : gset action := running s.

(** [.then(resolve, reject)], line 31, on the promise store. *)
Definition settle_handle (h : handle) (o : outcome value)
    (hs : list (pstate value)) : list (pstate value) :=
  match hs !! h with
  | Some p => <[h := settle_once o p]> hs
  | None => hs
  end.

(** [function cleanup()], lines 32-36, for chain [i] of action [a]. *)
Definition cleanup (k : Z) (i : nat) (c : chain) (s : state) : state :=
  let a := ch_action c in
  run k
    (set_chains (<[i := set_phase Done c]> (chains s))
       (set_promises (delete a (promises s))
          (set_running (running s ∖ {[a]}) s))).

(** The callable of the chain has been called.  The [.then(action)] jobs
    are put on the job queue by [run] and the job queue is first in, first
    out: the job of a chain runs after the jobs of the chains built before
    it. *)
Definition invoked (c : chain) : Prop := ch_phase c ≠ Scheduled.

#[global] Instance invoked_dec (c : chain) : Decision (invoked c).
Proof. unfold invoked. apply _. Defined.

Inductive event : Type :=
| Push (a : action)                    (* a client calls [push(a)] *)
| Clear                                (* a client calls [clear()] *)
| Tick                                 (* a [.then(run)] job of a push runs *)
| Invoke (i : nat)                     (* [.then(action)] of chain [i] runs *)
| Settle (i : nat) (o : outcome value) (* the result of chain [i] settles and
                                          [.then(resolve, reject)] runs *)
| Cleanup (i : nat).                   (* [.finally(cleanup)] of chain [i] runs *)

Definition step (k : Z) (ev : event) (s : state) : state :=
  match ev with
  | Push a => (push a s).2
  | Clear => clear s
  | Tick =>
      match triggers s with
      | O => s
      | S n => run k (set_triggers n s)
      end
  | Invoke i =>
      match chains s !! i with
      | Some c =>
          match ch_phase c with
          | Scheduled =>
              if decide (Forall invoked (take i (chains s)))
              then set_chains (<[i := set_phase Executing c]> (chains s)) s
              else s
          | _ => s
          end
      | None => s
      end
  | Settle i o =>
      match chains s !! i with
      | Some c =>
          match ch_phase c with
          | Executing =>
              set_chains (<[i := set_phase Finishing c]> (chains s))
                (set_handles (settle_handle (ch_handle c) o (handles s)) s)
          | _ => s
          end
      | None => s
      end
  | Cleanup i =>
      match chains s !! i with
      | Some c =>
          match ch_phase c with
          | Finishing => cleanup k i c s
          | _ => s
          end
      | None => s
      end
  end.

(** A run of the event loop: the events are processed from left to right. *)
Definition exec (k : Z) (tr : list event) (s : state) : state :=
  foldl (λ s ev, step k ev s) s tr.

(** *** Predicates on queue states, used by the statements below *)

(** The running set is within the limit [k]. *)
Definition bounded (k : Z) (s : state) : Prop :=
  (Z.of_nat (size (running s)) ≤ k)%Z.

(** The callables are called in the order in which the chains were built:
    a chain whose callable has been called is preceded only by such chains. *)
Definition invoked_in_order (cs : list chain) : Prop :=
  ∀ i j ci cj, cs !! i = Some ci → cs !! j = Some cj → i < j →
    invoked cj → invoked ci.

(** Nothing was started, thrown or settled. *)
Definition idle (s : state) : Prop :=
  chains s = [] ∧ running s = ∅ ∧ thrown s = [] ∧
  Forall (λ p, p = Pending) (handles s).

(** The tickets of the occurrences that were started, in the order in which
    [run] started them, followed by the tickets of those still waiting. *)
Definition tickets (s : state) : list handle :=
  (ch_ticket <$> chains s) ++ (queue s).*2.

(** A chain that has not yet called [resolve] or [reject]. *)
Definition unsettled (c : chain) : Prop :=
  ch_phase c = Scheduled ∨ ch_phase c = Executing.

(** A chain whose [cleanup] has not yet run. *)
Definition active (c : chain) : Prop := ch_phase c ≠ Done.

#[global] Instance active_dec (c : chain) : Decision (active c).
Proof. unfold active. apply _. Defined.

(** The chains in flight. *)
Definition in_flight (s : state) : list chain := filter active (chains s).

(** The callables that have an occurrence in flight or waiting. *)
Definition live (s : state) : list action :=
  (ch_action <$> in_flight s) ++ (queue s).*1.

(** Bookkeeping facts that hold in every state the queue can reach. *)
Record wf (s : state) : Prop := Wf {
  wf_sorted : StronglySorted lt (tickets s);
  wf_tickets : Forall (λ t, t < length (handles s)) (tickets s);
  wf_promises : ∀ a h, promises s !! a = Some h → h < length (handles s);
  wf_owner : ∀ a a' t, (a, t) ∈ queue s → promises s !! a' = Some t → a' = a;
  wf_chains : ∀ c, c ∈ chains s → ch_handle c < length (handles s);
  wf_settled : ∀ h o, handles s !! h = Some (Settled o) →
    ∃ c, c ∈ chains s ∧ ch_handle c = h ∧ ¬ unsettled c;
  wf_running : ∀ a, a ∈ running s →
    ∃ c, c ∈ chains s ∧ ch_action c = a ∧ active c
}.



(** No callable is pushed while an occurrence of it is in flight or waits:
    checked along the run [tr] from state [s]. *)
Fixpoint no_repush (k : Z) (tr : list event) (s : state) : bool :=
  match tr with
  | [] => true
  | ev :: tr =>
      match ev with
      | Push a => bool_decide (a ∉ live s)
      | _ => true
      end && no_repush k tr (step k ev s)
  end.

(** What holds of the states of such a run. *)
Record distinct_inv (s : state) : Prop := DistinctInv {
  di_nodup : NoDup (live s);
  di_binding : ∀ a t, (a, t) ∈ queue s → promises s !! a = Some t;
  di_own : ∀ c, c ∈ chains s → ch_handle c = ch_ticket c;
  di_waiting : ∀ a t, (a, t) ∈ queue s → handles s !! t = Some Pending;
  di_unsettled : ∀ c, c ∈ chains s → unsettled c →
    handles s !! ch_handle c = Some Pending;
  di_thrown : thrown s = []
}.

(** While a callable waits in the queue, a call of [run] is still to come:
    from a [.then(run)] job or from the [cleanup] of a chain. *)
Definition wakeup (s : state) : Prop :=
  queue s ≠ [] → 0 < triggers s ∨ ∃ c, c ∈ chains s ∧ active c.

(** The callable of every chain in flight is in the running set. *)
Definition flights_running (s : state) : Prop :=
  ∀ c, c ∈ chains s → active c → ch_action c ∈ running s.

(** An event of the event loop itself, as opposed to a call by a client. *)
Definition internal (ev : event) : Prop :=
  match ev with
  | Push _ | Clear => False
  | _ => True
  end.

(** The jobs that a chain has yet to run, and the work that a state has yet
    to do: four steps for a waiting occurrence (its start included). *)
Definition chain_work (c : chain) : nat :=
  match ch_phase c with
  | Scheduled => 3
  | Executing => 2
  | Finishing => 1
  | Done => 0
  end.

Definition work (s : state) : nat :=
  4 * length (queue s) + sum_list (chain_work <$> chains s).

(** Nothing waits and every chain has run its [cleanup]. *)
Definition quiescent (s : state) : Prop :=
  queue s = [] ∧ Forall (λ c, ch_phase c = Done) (chains s).

(** The promise with ticket [t] has yet to be settled: its occurrence waits
    or its chain has not called [resolve] or [reject]. *)
Definition outstanding (t : handle) (s : state) : Prop :=
  t ∈ (queue s).*2 ∨ ∃ c, c ∈ chains s ∧ unsettled c ∧ ch_ticket c = t.


End Queue.

(** ** The timeout wrapper *)

Module Timeout.

(** [Number.isSafeInteger]: the integers that a JavaScript number holds
    exactly, its neighbours too, from -(2^53 - 1) to 2^53 - 1. *)
Definition Number_isSafeInteger (n : Z) : Prop :=
  (- (2 ^ 53 - 1) ≤ n ≤ 2 ^ 53 - 1)%Z.

#[global] Instance Number_isSafeInteger_dec (n : Z) :
  Decision (Number_isSafeInteger n).
Proof. unfold Number_isSafeInteger. apply _. Defined.

(** A number in a template literal.  A safe integer is printed with its
    decimal digits, with a minus sign before them when it is negative.  The
    other numbers are printed by other rules (an integer from 2^53 on from
    the shortest digits that tell it from its neighbours, with an exponent
    from 10^21 on; a fraction, [NaN], the infinities), which are not
    modelled: [None]. *)
Definition template_number (time : Z) : option string :=
  if decide (Number_isSafeInteger time) then Some (pretty time) else None.

(** [class TimeoutExpiredError extends Error], lines 52-59.  The object is
    given as the map of its own properties, where the model has the
    printed form of [time], and as [None] where it has not.  [func.name] is
    a string and the empty string is falsy.  [super(msg)] sets [message],
    the constructor sets [name] (the [stack] that [Error] adds is left
    out). *)
Definition TimeoutExpiredError (func_name : string) (time : Z) :
    option (gmap string string) :=
  let funcName := if decide (func_name = "") then "<anonymous>" else func_name in
  match template_number time with
  | Some printed =>
      let msg := "Timeout-wrapped function " +:+ funcName +:+
                 " took longer than " +:+ printed +:+ "ms to resolve" in
      Some (<["name" := "TimeoutExpiredError"]> {["message" := msg]})
  | None => None
  end.

(** Why the promise of a wrapped call is rejected. *)
Inductive reason : Type :=
| Forwarded (e : value)   (* what the wrapped function threw or rejected with *)
| Raised (err : option (gmap string string)).
    (* an error made by [new TimeoutExpiredError], with its properties
       where [TimeoutExpiredError] gives them *)

(** The arguments of [timeout(func, ms = 5000, { rejectOnTimeout = true } = {})];
    of [func] only its [name] matters besides what a call of it does. *)
Record wrapper : Type := Wrapper {
  w_name : string;
  w_ms : Z;
  w_reject : bool
}.

Definition timeout (func_name : string) (ms : option Z)
    (rejectOnTimeout : option bool) : wrapper :=
  Wrapper func_name (default 5000%Z ms) (default true rejectOnTimeout).

(** The timer made by [setTimeout]. *)
Inductive timer : Type := Armed | Fired | Cleared.

(** [clearTimeout(kill)]: only a timer that has not fired is affected. *)
Definition clearTimeout (t : timer) : timer :=
  match t with
  | Armed => Cleared
  | t => t
  end.

(** What [func.apply(this, args)] did. *)
Inductive applied : Type :=
| Threw       (* it threw: the executor of [new Promise] was left early *)
| Waiting     (* it returned a promise that has not settled *)
| Finished.   (* the promise settled and the handlers of line 83-84 ran *)

(** One call of [timeoutified]: the variables of the executor's closure and
    the promise that the call returns. *)
Record call : Type := Call {
  overran : bool;           (* [let overran] *)
  kill : timer;             (* [const kill] *)
  underlying : applied;
  outer : pstate reason     (* the promise returned by [timeoutified] *)
}.

(** The executor, lines 75-85.  [thrown] is [Some e] when [func.apply]
    throws [e]: [new Promise] then rejects the promise with [e] and nothing
    after line 82 is run. *)
Definition timeoutified (w : wrapper) (thrown : option value) : call :=
  match thrown with
  | Some e => Call false Armed Threw (Settled (Rejected (Forwarded e)))
  | None => Call false Armed Waiting Pending
  end.

Definition forward (o : outcome value) : outcome reason :=
  match o with
  | Fulfilled v => Fulfilled v
  | Rejected e => Rejected (Forwarded e)
  end.

(** The callback of [setTimeout], lines 77-81. *)
Definition on_deadline (w : wrapper) (c : call) : call :=
  let p :=
    if w_reject w
    then settle_once (Rejected (Raised (TimeoutExpiredError (w_name w) (w_ms w)))) (outer c)
    else outer c in
  Call true Fired (underlying c) p.

(** The handlers of lines 83-84, run when the promise of [func] settles
    with [o]: first [clearTimeout(kill)], then [!overran && resolve(ret)] or
    [!overran && reject(err)]. *)
Definition on_result (o : outcome value) (c : call) : call :=
  let t := clearTimeout (kill c) in
  let p := if overran c then outer c else settle_once (forward o) (outer c) in
  Call (overran c) t Finished p.

Inductive event : Type :=
| Deadline                       (* the timer fires *)
| Result (o : outcome value).    (* the promise returned by [func] settles *)

Definition step (w : wrapper) (ev : event) (c : call) : call :=
  match ev with
  | Deadline =>
      match kill c with
      | Armed => on_deadline w c
      | _ => c
      end
  | Result o =>
      match underlying c with
      | Waiting => on_result o c
      | _ => c
      end
  end.

Definition exec (w : wrapper) (tr : list event) (c : call) : call :=
  foldl (λ c ev, step w ev c) c tr.

(** The wrapped call has come to an end other than by the deadline: its
    promise is settled and the deadline has not fired. *)
Definition exited (c : call) : Prop :=
  outer c ≠ Pending ∧ kill c ≠ Fired.

(** The states that a call of [timeoutified] goes through. *)
Definition shape (w : wrapper) (thrown : option value) (c : call) : Prop :=
  match thrown with
  | Some e => underlying c = Threw ∧ outer c = Settled (Rejected (Forwarded e))
  | None =>
      (kill c = Armed ∧ overran c = false ∧ underlying c = Waiting ∧
       outer c = Pending) ∨
      (kill c = Fired ∧ overran c = true ∧
       outer c = if w_reject w
                 then Settled (Rejected
                        (Raised (TimeoutExpiredError (w_name w) (w_ms w))))
                 else Pending) ∨
      (kill c = Cleared ∧ overran c = false ∧ underlying c = Finished ∧
       ∃ o, outer c = Settled (forward o))
  end.

End Timeout.

(** ** Asynchronous versions of array methods *)

Module Async.

(** What the callback given to [array.map] does on one element.  A value
    that is not a promise counts as a promise fulfilled from the start.
    Of a fulfilled value only its truthiness is used by the source.  The
    instant is the place in time at which the reaction of [Promise.all] to
    the promise is put on the job queue; promises that are settled when
    [Promise.all] subscribes to them have their reactions queued in the
    order of the array. *)
Inductive answer : Type :=
| Throws (e : value)                   (* the call throws [e] *)
| Fulfils (instant : nat) (truthy : bool)  (* the result is fulfilled *)
| Rejects (instant : nat) (e : value)  (* the result is rejected with [e] *)
| Hangs.                               (* the result never settles *)

(** The promise that an [async function] returns. *)
Inductive fate (A : Type) : Type :=
| Returns (x : A)     (* fulfilled with the returned value *)
| Fails (e : value)   (* rejected with the value thrown *)
| Never.              (* never settled *)
Arguments Returns {A} x.
Arguments Fails {A} e.
Arguments Never {A}.

(** [array.map(...args)]: the callback is called on the elements in the
    order of the array with the element and its index; a call that throws
    ends [map], and the calls on the later elements are not made. *)
Fixpoint array_map {A} (callback : A → nat → answer) (idx : nat)
    (array : list A) : value + list answer :=
  match array with
  | [] => inr []
  | elt :: rest =>
      match callback elt idx with
      | Throws e => inl e
      | a =>
          match array_map callback (S idx) rest with
          | inl e => inl e
          | inr l => inr (a :: l)
          end
      end
  end.

(** The rejection that [Promise.all] sees first, with its instant: the
    earliest, and of two at the same instant the one of the lower index. *)
Fixpoint first_rejection (l : list answer) : option (nat * value) :=
  match l with
  | [] => None
  | a :: rest =>
      match a, first_rejection rest with
      | Rejects t e, Some (t', e') =>
          if decide (t ≤ t') then Some (t, e) else Some (t', e')
      | Rejects t e, None => Some (t, e)
      | _, r => r
      end
  end.

Definition fulfilled (a : answer) : option bool :=
  match a with
  | Fulfils _ truthy => Some truthy
  | _ => None
  end.

(** [Promise.all]: rejected with the first rejection it sees; fulfilled
    with the values, in the order of the array, when all are fulfilled;
    otherwise never settled. *)
Definition Promise_all (l : list answer) : fate (list bool) :=
  match first_rejection l with
  | Some (_, e) => Fails e
  | None =>
      match mapM fulfilled l with
      | Some truth => Returns truth
      | None => Never
      end
  end.

(** [const truth = await Promise.all(array.map(...args))], lines 3 and 7. *)
Definition await_truth {A} (callback : A → nat → answer) (array : list A) :
    fate (list bool) :=
  match array_map callback 0 array with
  | inl e => Fails e
  | inr l => Promise_all l
  end.

(** [truth[idx]] in a condition: a missing entry is [undefined], falsy. *)
Definition truth_at (truth : list bool) (idx : nat) : bool :=
  default false (truth !! idx).

(** [Array.prototype.every] and [Array.prototype.filter] on an array
    without holes, the callback given the element and its index. *)
Fixpoint array_every {A} (f : A → nat → bool) (idx : nat) (array : list A) :
    bool :=
  match array with
  | [] => true
  | elt :: rest => f elt idx && array_every f (S idx) rest
  end.

Fixpoint array_filter {A} (f : A → nat → bool) (idx : nat) (array : list A) :
    list A :=
  match array with
  | [] => []
  | elt :: rest =>
      if f elt idx then elt :: array_filter f (S idx) rest
      else array_filter f (S idx) rest
  end.

(** [async function every(array, ...args)], lines 2-5. *)
Definition asyncEvery {A} (callback : A → nat → answer) (array : list A) :
    fate bool :=
  match await_truth callback array with
  | Returns truth => Returns (array_every (λ _ idx, truth_at truth idx) 0 array)
  | Fails e => Fails e
  | Never => Never
  end.

(** [async function filter(array, ...args)], lines 6-9. *)
Definition asyncFilter {A} (callback : A → nat → answer) (array : list A) :
    fate (list A) :=
  match await_truth callback array with
  | Returns truth => Returns (array_filter (λ _ idx, truth_at truth idx) 0 array)
  | Fails e => Fails e
  | Never => Never
  end.

(** The callback fulfils on the element, with a truthy value. *)
Definition passes {A} (callback : A → nat → answer) (elt : A) (idx : nat) :
    bool :=
  match callback elt idx with
  | Fulfils _ true => true
  | _ => false
  end.

(** The callback fulfils on every element of the array, the first of which
    has index [idx]. *)
Definition all_fulfil {A} (callback : A → nat → answer) (idx : nat)
    (array : list A) : Prop :=
  ∀ i elt, array !! i = Some elt → ∃ t b, callback elt (idx + i) = Fulfils t b.

(** No call of the callback throws. *)
Definition none_throws {A} (callback : A → nat → answer) (idx : nat)
    (array : list A) : Prop :=
  ∀ i elt e, array !! i = Some elt → callback elt (idx + i) ≠ Throws e.

End Async.

(** ** Iterator transform methods *)

Module Iterator.

(** The values that go through an iterator; [undefined] is kept apart
    because [reduce] tests its initial value against it. *)
Inductive jsval : Type :=
| undefined
| Val (v : value).

#[global] Instance jsval_eq_dec : EqDecision jsval.
Proof. solve_decision. Defined.

(** The iterables given to the functions: an array, a generator object
    (a reference into the heap, the list of the generator objects
    made so far; a generator
    object is its own iterator), or an object made by [wrap], which holds
    the iterable it was made from and does not change. *)
Inductive iterable : Type :=
| Array (elements : list jsval)
| Generator (g : nat)
| Wrapped (iterator : iterable).

(** What [iterator[Symbol.iterator]()] returns, the thing a [for ... of]
    or a [yield*] pulls from.  An array gives a new array iterator at each
    call, a generator object gives itself, and a wrapped iterable gives a
    new generator that runs [yield* iterator] (lines 122-124).  That last
    generator is held by the loop that asked for it and by nothing else, so
    its state is kept in the cursor: not started, delegating to the cursor
    of the inner iterable, or finished. *)
Inductive cursor : Type :=
| ArrayIterator (rest : list jsval)
| GeneratorObject (g : nat)
| DelegateStart (iterator : iterable)
| DelegateYield (inner : cursor)
| DelegateDone.

(** The two generator functions of the source, with the callback of their
    closure.  The callbacks are taken to be pure and total, so [thisArg]
    plays no part. *)
Inductive body : Type :=
| baseMap (mapFn : jsval → nat → jsval)
| baseFilter (filterFn : jsval → nat → bool).

(** A generator object.  [SuspendedStart]: made by [baseMap()] or
    [baseFilter()], not resumed yet, [iterator] in its closure.
    [SuspendedYield]: inside the [for ... of], holding the cursor it got
    from [iterator] and the local [idx].  [External]: a generator object
    made by the caller, which yields the given values and then returns. *)
Inductive generator : Type :=
| SuspendedStart (b : body) (iterator : iterable)
| SuspendedYield (b : body) (inner : cursor) (idx : nat)
| Completed
| External (rest : list jsval).


Definition Symbol_iterator (iterator : iterable) : cursor :=
  match iterator with
  | Array elements => ArrayIterator elements
  | Generator g => GeneratorObject g
  | Wrapped iterator => DelegateStart iterator
  end.

(** [c.next()]: [Some (Some v, c', h')] is [{value: v, done: false}],
    [Some (None, c', h')] is [{done: true}], and [None] is fuel run out.
    One unit of fuel is used for each call of [next] and for each turn of
    the loop of [baseFilter] that yields nothing.

    For a generator object the body runs to the next [yield]:
    - lines 91-98, [baseFilter]: [idx = 0], then for each value of the
      iterator [filterFn.call(thisArg, value, idx++)], and [yield value]
      when the answer is truthy;
    - lines 102-105, [baseMap]: [idx = 0], then for each value of the
      iterator [yield mapFn.call(thisArg, value, idx++)];
    - lines 122-124: [yield* iterator]. *)
Fixpoint next (fuel : nat) (c : cursor) (h : list generator) :
    option (option jsval * cursor * list generator) :=
  match fuel with
  | 0 => None
  | S fuel =>
      match c with
      | ArrayIterator [] => Some (None, c, h)
      | ArrayIterator (value :: rest) => Some (Some value, ArrayIterator rest, h)
      | GeneratorObject g =>
          match h !! g with
          | None | Some Completed | Some (External []) => Some (None, c, h)
          | Some (External (value :: rest)) =>
              Some (Some value, c, <[g := External rest]> h)
          | Some (SuspendedStart b iterator) =>
              next fuel c (<[g := SuspendedYield b (Symbol_iterator iterator) 0]> h)
          | Some (SuspendedYield b inner idx) =>
              match next fuel inner h with
              | None => None
              | Some (None, _, h') => Some (None, c, <[g := Completed]> h')
              | Some (Some value, inner', h') =>
                  let h'' := <[g := SuspendedYield b inner' (S idx)]> h' in
                  match b with
                  | baseMap mapFn => Some (Some (mapFn value idx), c, h'')
                  | baseFilter filterFn =>
                      if filterFn value idx then Some (Some value, c, h'')
                      else next fuel c h''
                  end
              end
          end
      | DelegateStart iterator =>
          next fuel (DelegateYield (Symbol_iterator iterator)) h
      | DelegateYield inner =>
          match next fuel inner h with
          | None => None
          | Some (None, _, h') => Some (None, DelegateDone, h')
          | Some (Some value, inner', h') =>
              Some (Some value, DelegateYield inner', h')
          end
      | DelegateDone => Some (None, c, h)
      end
  end.

(** [function wrap(iterator)], lines 120-129.  The object keeps
    [iterator]; its methods [filter], [map] and [reduce] are the functions
    below applied to [iterator] itself, not to the object. *)
Definition wrap (iterator : iterable) : iterable := Wrapped iterator.

(** [function map(iterator, mapFn, thisArg)], lines 100-106: a new
    generator object, not resumed, wrapped. *)
Definition map (iterator : iterable) (mapFn : jsval → nat → jsval)
    (h : list generator) : iterable * list generator :=
  (wrap (Generator (length h)), h ++ [SuspendedStart (baseMap mapFn) iterator]).

(** [function filter$1(iterator, filterFn, thisArg)], lines 90-99. *)
Definition filter_1 (iterator : iterable) (filterFn : jsval → nat → bool)
    (h : list generator) : iterable * list generator :=
  (wrap (Generator (length h)),
   h ++ [SuspendedStart (baseFilter filterFn) iterator]).

(** The loop of [reduce], lines 110-117, at the cursor [c] with the locals
    [idx] and [accumulator]. *)
Fixpoint reduce_loop (fuel : nat) (reducer : jsval → jsval → nat → jsval)
    (initialValue : jsval) (c : cursor) (idx : nat) (accumulator : jsval)
    (h : list generator) : option (jsval * list generator) :=
  match fuel with
  | 0 => None
  | S fuel =>
      match next fuel c h with
      | None => None
      | Some (None, _, h') => Some (accumulator, h')
      | Some (Some value, c', h') =>
          if bool_decide (idx = 0 ∧ initialValue = undefined)
          then reduce_loop fuel reducer initialValue c' (idx + 1) value h'
          else reduce_loop fuel reducer initialValue c' (S idx)
                 (reducer accumulator value idx) h'
      end
  end.

(** [function reduce(iterator, reducer, initialValue)], lines 107-119.  An
    argument left out is [undefined]. *)
Definition reduce (fuel : nat) (iterator : iterable)
    (reducer : jsval → jsval → nat → jsval) (initialValue : jsval)
    (h : list generator) : option (jsval * list generator) :=
  reduce_loop fuel reducer initialValue (Symbol_iterator iterator) 0
    initialValue h.

(** A consumer that pulls until the cursor is done, as [Array.from] or a
    spread does: the values it gets and the heap it leaves. *)
Fixpoint exhaust (fuel : nat) (c : cursor) (h : list generator) :
    option (list jsval * list generator) :=
  match fuel with
  | 0 => None
  | S fuel =>
      match next fuel c h with
      | None => None
      | Some (None, _, h') => Some ([], h')
      | Some (Some value, c', h') =>
          match exhaust fuel c' h' with
          | None => None
          | Some (l, h'') => Some (value :: l, h'')
          end
      end
  end.

Definition collect (fuel : nat) (iterator : iterable) (h : list generator) :
    option (list jsval * list generator) :=
  exhaust fuel (Symbol_iterator iterator) h.

(** Pulling all of [c] from [h] ends, with the values [l] and the heap
    [h']. *)
Definition drains (c : cursor) (h : list generator) (l : list jsval) (h' : list generator) : Prop :=
  ∃ fuel, exhaust fuel c h = Some (l, h').

Definition collects (iterator : iterable) (h : list generator) (l : list jsval)
    (h' : list generator) : Prop :=
  drains (Symbol_iterator iterator) h l h'.

Definition reduces (iterator : iterable)
    (reducer : jsval → jsval → nat → jsval) (initialValue : jsval) (h : list generator)
    (result : jsval) (h' : list generator) : Prop :=
  ∃ fuel, reduce fuel iterator reducer initialValue h = Some (result, h').

(** The generator objects an iterable, a cursor or a generator object
    refers to are older than [n]. *)
Fixpoint iterable_below (n : nat) (iterator : iterable) : Prop :=
  match iterator with
  | Array _ => True
  | Generator g => g < n
  | Wrapped iterator => iterable_below n iterator
  end.

Fixpoint cursor_below (n : nat) (c : cursor) : Prop :=
  match c with
  | ArrayIterator _ | DelegateDone => True
  | GeneratorObject g => g < n
  | DelegateStart iterator => iterable_below n iterator
  | DelegateYield inner => cursor_below n inner
  end.

Definition generator_below (n : nat) (cell : generator) : Prop :=
  match cell with
  | SuspendedStart _ iterator => iterable_below n iterator
  | SuspendedYield _ inner _ => cursor_below n inner
  | Completed | External _ => True
  end.

(** The heaps that the functions build: a generator object refers to
    older generator objects only. *)
Definition wf (h : list generator) : Prop :=
  ∀ g cell, h !! g = Some cell → generator_below g cell.

(** An iterable that reads from a generator object, and so can be gone
    through once only. *)
Fixpoint one_shot (iterator : iterable) : bool :=
  match iterator with
  | Array _ => false
  | Generator _ => true
  | Wrapped iterator => one_shot iterator
  end.

(** The list of the values of an iterable that holds no generator
    object. *)
Fixpoint elements_of (iterator : iterable) : list jsval :=
  match iterator with
  | Array elements => elements
  | Generator _ => []
  | Wrapped iterator => elements_of iterator
  end.

(** What the body [b] yields from the values [l] of its iterator, [idx]
    the index of the first. *)
Fixpoint yields (b : body) (idx : nat) (l : list jsval) : list jsval :=
  match l with
  | [] => []
  | value :: rest =>
      match b with
      | baseMap mapFn => mapFn value idx :: yields b (S idx) rest
      | baseFilter filterFn =>
          if filterFn value idx then value :: yields b (S idx) rest
          else yields b (S idx) rest
      end
  end.

End Iterator.

(** ** The use of the slots of the queue *)

Module Scheduling.
Import Queue.

(** The waiting callables, or else the free slots, are no more than the
    [.then(run)] jobs still to come: no callable waits beside a free slot
    without a call of [run] on its way. *)
Definition covered (k : Z) (s : state) : Prop :=
  (Z.of_nat (length (queue s)) ≤ Z.of_nat (triggers s) ∨
   k - Z.of_nat (size (running s)) ≤ Z.of_nat (triggers s))%Z.

End Scheduling.

(** ** Facts about the queue *)

Module QueueFacts.
Import Queue.

Ltac proj :=
  cbn [queue promises running handles chains triggers thrown
       set_queue set_promises set_running set_handles set_chains
       set_triggers set_thrown ch_action ch_ticket ch_handle ch_phase
       set_phase fst snd] in *.

(** *** Lists updated in place *)

Section list_update.
Context {A : Type}.
Implicit Types (l : list A) (x y : A).

Lemma elem_insert_inv l i x y : y ∈ <[i := x]> l → y = x ∨ y ∈ l.
Proof.
  intros [j Hj]%list_elem_of_lookup.
  destruct (decide (i = j)) as [->|Hne].
  - destruct (decide (j < length l)) as [Hlt|Hge].
    + rewrite list_lookup_insert_eq in Hj by done. left. congruence.
    + rewrite list_insert_ge in Hj by lia. right.
      apply list_elem_of_lookup. eauto.
  - rewrite list_lookup_insert_ne in Hj by done. right.
    apply list_elem_of_lookup. eauto.
Qed.

Lemma elem_insert_keep l i x c y :
  l !! i = Some c → y ∈ l → y = c ∨ y ∈ <[i := x]> l.
Proof.
  intros Hi [j Hj]%list_elem_of_lookup.
  destruct (decide (i = j)) as [->|Hne]; [left; congruence|].
  right. apply list_elem_of_lookup. exists j.
  by rewrite list_lookup_insert_ne.
Qed.

Lemma elem_insert_new l i x c : l !! i = Some c → x ∈ <[i := x]> l.
Proof.
  intros Hi. apply list_elem_of_lookup. exists i.
  apply list_lookup_insert_eq. by eapply lookup_lt_Some.
Qed.

Lemma fmap_insert_same {B} (f : A → B) l i x c :
  l !! i = Some c → f x = f c → f <$> <[i := x]> l = f <$> l.
Proof.
  intros Hi Hf. rewrite list_fmap_insert, Hf.
  apply list_insert_id. by rewrite list_lookup_fmap, Hi.
Qed.
End list_update.

(** *** What [run] does, case by case *)

Lemma run_cases (k : Z) (s : state) :
  (((k ≤ Z.of_nat (size (running s)))%Z ∨ queue s = []) ∧ run k s = s) ∨
  (∃ a t q, (Z.of_nat (size (running s)) < k)%Z ∧ queue s = (a, t) :: q ∧
     promises s !! a = None ∧
     run k s = set_thrown (thrown s ++ [a]) (set_queue q s)) ∨
  (∃ a t q h, (Z.of_nat (size (running s)) < k)%Z ∧ queue s = (a, t) :: q ∧
     promises s !! a = Some h ∧
     run k s = set_chains (chains s ++ [Chain a t h Scheduled])
                 (set_running ({[a]} ∪ running s) (set_queue q s))).
Proof.
  unfold run. case_decide as Hfull; [left; split; [by left|done]|].
  destruct (queue s) as [|[a t] q] eqn:Hq; [left; split; [by right|done]|].
  proj. destruct (promises s !! a) as [h|] eqn:Hp.
  - right; right. exists a, t, q, h. repeat split; [lia|done..].
  - right; left. exists a, t, q. repeat split; [lia|done..].
Qed.

(** *** The bound on the running set *)

Lemma size_remove (r : gset action) (a : action) : size (r ∖ {[a]}) ≤ size r.
Proof. apply subseteq_size, subseteq_difference_l. done. Qed.

Lemma size_add (r : gset action) (a : action) : size ({[a]} ∪ r) ≤ S (size r).
Proof.
  rewrite size_union_alt, size_singleton.
  pose proof (size_remove r a). lia.
Qed.

Lemma run_bounded (k : Z) (s : state) : bounded k s → bounded k (run k s).
Proof.
  unfold bounded. intros Hb.
  destruct (run_cases k s) as [[_ ->]|[(a & t & q & Hlt & _ & _ & ->)|
    (a & t & q & h & Hlt & _ & _ & ->)]]; proj; [done..|].
  pose proof (size_add (running s) a). lia.
Qed.

Lemma step_bounded (k : Z) (ev : event) (s : state) :
  bounded k s → bounded k (step k ev s).
Proof.
  intros Hb. destruct ev as [a| | |i|i o|i]; cbn [step]; try done.
  - destruct (triggers s); [done|]. by apply run_bounded.
  - destruct (chains s !! i) as [c|]; [|done]. destruct (ch_phase c); try done.
    by case_decide.
  - destruct (chains s !! i) as [c|]; [|done]. by destruct (ch_phase c).
  - destruct (chains s !! i) as [c|]; [|done].
    destruct (ch_phase c); try done.
    apply run_bounded. unfold bounded in *. proj.
    pose proof (size_remove (running s) (ch_action c)). lia.
Qed.

Lemma exec_bounded (k : Z) (tr : list event) (s : state) :
  bounded k s → bounded k (exec k tr s).
Proof.
  revert s. induction tr as [|ev tr IH]; intros s Hb; [done|].
  apply IH. by apply step_bounded.
Qed.

Lemma running_never_exceeds_limit_aux (k : Z) (tr : list event) :
  (1 ≤ k)%Z → bounded k (exec k tr init).
Proof.
  intros Hk. apply exec_bounded. unfold bounded.
  change (running init) with (∅ : gset action). rewrite size_empty. lia.
Qed.

(** C1. For a limit [k] of at least one, whatever the calls of [push] and
    [clear] and whatever the tasks do and when, the running set never has
    more than [k] elements. *)
Theorem running_never_exceeds_limit (k : Z) (tr : list event) :
  (1 ≤ k)%Z →
  (Z.of_nat (size (running_snapshot (exec k tr init))) ≤ k)%Z.
Proof.
  intros Hk. unfold running_snapshot.
  induction tr as [|ev tr IH] using rev_ind.
  - change (running (exec k [] init)) with (∅ : gset action).
    rewrite size_empty. lia.
  - unfold exec in *. rewrite foldl_snoc. by apply step_bounded.
Qed.

Lemma running_never_exceeds_limit_witness :
  (Z.of_nat (size (running_snapshot
     (exec 2 [Push 0; Push 1; Push 2; Tick; Tick; Tick; Invoke 0; Invoke 1;
              Settle 0 (Fulfilled 5); Cleanup 0] init))) ≤ 2)%Z.
Proof. apply (running_never_exceeds_limit 2). lia. Defined.

Lemma settle_handle_length (h : handle) (o : outcome value)
    (hs : list (pstate value)) :
  length (settle_handle h o hs) = length hs.
Proof.
  unfold settle_handle. destruct (hs !! h); [|done]. by rewrite length_insert.
Qed.

(** *** Well-formed states *)

Lemma wf_init : wf init.
Proof.
  split.
  - constructor.
  - constructor.
  - intros a h. change (promises init) with (∅ : gmap action handle).
    by rewrite lookup_empty.
  - intros a a' t Hin. by apply elem_of_nil in Hin.
  - intros c Hc. by apply elem_of_nil in Hc.
  - intros h o. by change (handles init) with (@nil (pstate value)).
  - intros a. change (running init) with (∅ : gset action).
    by intros ?%not_elem_of_empty.
Qed.

Lemma queue_ticket_bound (s : state) (a : action) (t : handle) :
  wf s → (a, t) ∈ queue s → t < length (handles s).
Proof.
  intros Hwf Hin. pose proof (wf_tickets s Hwf) as Ht.
  apply Forall_app in Ht as [_ Ht]. eapply Forall_forall in Ht; [exact Ht|].
  apply list_elem_of_fmap. by exists (a, t).
Qed.

Lemma wf_push (a : action) (s : state) : wf s → wf (push a s).2.
Proof.
  intros Hwf. pose proof (queue_ticket_bound s) as Hqb.
  destruct Hwf as [Hs Ht Hp Ho Hc Hd Hr].
  unfold push. split; unfold tickets in *; proj.
  - rewrite fmap_app, app_assoc. apply StronglySorted_app.
    split_and!; [|done|repeat constructor].
    intros x1 x2 Hx1 ->%list_elem_of_singleton.
    by eapply Forall_forall in Ht.
  - rewrite length_app, fmap_app, app_assoc. cbn [length fmap list_fmap].
    apply Forall_app. split.
    + eapply Forall_impl; [exact Ht|]. cbn. lia.
    + repeat constructor. cbn. lia.
  - intros a' h. rewrite length_app. cbn [length].
    destruct (decide (a = a')) as [->|Hne].
    + rewrite lookup_insert_eq. intros [= <-]. lia.
    + rewrite lookup_insert_ne by done. intros ?%Hp. lia.
  - intros b b' t [Hin|Hin%list_elem_of_singleton]%elem_of_app Hb'.
    + destruct (decide (a = b')) as [->|Hne].
      * rewrite lookup_insert_eq in Hb'. injection Hb' as <-.
        apply Hqb in Hin; [lia|]. by split.
      * rewrite lookup_insert_ne in Hb' by done. by eapply Ho.
    + injection Hin as -> ->.
      destruct (decide (a = b')) as [->|Hne]; [done|].
      rewrite lookup_insert_ne in Hb' by done. apply Hp in Hb'. lia.
  - intros c ?%Hc. rewrite length_app. lia.
  - intros h o Hh. apply Hd with o.
    destruct (decide (h < length (handles s))) as [Hlt|Hge].
    + by rewrite lookup_app_l in Hh.
    + rewrite lookup_app_r in Hh by lia.
      destruct (h - length (handles s)) as [|n]; by cbn in Hh.
  - done.
Qed.

Lemma wf_clear (s : state) : wf s → wf (clear s).
Proof.
  intros [Hs Ht Hp Ho Hc Hd Hr]. unfold clear.
  split; unfold tickets in *; proj; try done.
  - cbn. rewrite app_nil_r. by apply StronglySorted_app_1_l in Hs.
  - cbn. rewrite app_nil_r. by apply Forall_app in Ht as [? _].
  - intros a a' t Hin. by apply elem_of_nil in Hin.
Qed.

Lemma wf_set_triggers (n : nat) (s : state) : wf s → wf (set_triggers n s).
Proof. by intros []. Qed.

Lemma wf_run (k : Z) (s : state) : wf s → wf (run k s).
Proof.
  intros Hwf.
  destruct (run_cases k s) as [[_ ->]|[(a & t & q & _ & Hq & _ & ->)|
    (a & t & q & h & _ & Hq & Hpa & ->)]]; [done|..];
    destruct Hwf as [Hs Ht Hp Ho Hc Hd Hr]; unfold tickets in *;
    rewrite Hq in *; split; unfold tickets; proj; try done.
  - apply StronglySorted_app in Hs as (H1 & H2 & H3).
    apply StronglySorted_app. split_and!; [|done|by inversion H3].
    intros x1 x2 Hx1 Hx2. apply H1; [done|]. cbn. by right.
  - apply Forall_app in Ht as [H1 H2]. apply Forall_app. split; [done|].
    by inversion H2.
  - intros b b' t' Hin. apply Ho. by right.
  - by rewrite fmap_app, <-app_assoc.
  - by rewrite fmap_app, <-app_assoc.
  - intros b b' t' Hin. apply Ho. by right.
  - intros c [Hin| ->%list_elem_of_singleton]%elem_of_app; [by apply Hc|].
    cbn. by eapply Hp.
  - intros h' o (c & Hin & Hh & Hph)%Hd. exists c. split_and!; [|done..].
    apply elem_of_app. by left.
  - intros b [->%elem_of_singleton|Hin]%elem_of_union.
    + exists (Chain a t h Scheduled). split_and!; [|done..].
      apply elem_of_app. right. by apply list_elem_of_singleton.
    + apply Hr in Hin as (c & Hin & Hc' & Hact). exists c.
      split_and!; [|done..]. apply elem_of_app. by left.
Qed.

(** Changing the phase of chain [i]. *)
Lemma wf_set_phase (p : phase) (i : nat) (c : chain) (s : state) :
  chains s !! i = Some c →
  (unsettled (set_phase p c) → unsettled c) →
  p ≠ Done →
  wf s → wf (set_chains (<[i := set_phase p c]> (chains s)) s).
Proof.
  intros Hi Hph Hact [Hs Ht Hp Ho Hc Hd Hr].
  assert (Hnew : set_phase p c ∈ <[i := set_phase p c]> (chains s))
    by (by eapply elem_insert_new).
  split; unfold tickets in *; proj; try done.
  - by rewrite (fmap_insert_same ch_ticket _ _ _ c).
  - by rewrite (fmap_insert_same ch_ticket _ _ _ c).
  - intros c' [->|Hin]%elem_insert_inv; [|by apply Hc].
    cbn. apply Hc. apply list_elem_of_lookup. eauto.
  - intros h o (c' & Hin & Hh & Hun)%Hd.
    destruct (elem_insert_keep _ i (set_phase p c) _ _ Hi Hin) as [->|Hin'].
    + exists (set_phase p c). split_and!; [done..|tauto].
    + by exists c'.
  - intros a (c' & Hin & Ha & Hac)%Hr.
    destruct (elem_insert_keep _ i (set_phase p c) _ _ Hi Hin) as [->|Hin'].
    + by exists (set_phase p c).
    + by exists c'.
Qed.

Lemma wf_set_handles (hs : list (pstate value)) (s : state) :
  length hs = length (handles s) →
  (∀ h o, hs !! h = Some (Settled o) →
     ∃ c, c ∈ chains s ∧ ch_handle c = h ∧ ¬ unsettled c) →
  wf s → wf (set_handles hs s).
Proof.
  intros Hlen Hd' [Hs Ht Hp Ho Hc Hd Hr].
  split; unfold tickets in *; proj; rewrite ?Hlen; done.
Qed.

Lemma wf_settle (i : nat) (c : chain) (o : outcome value) (s : state) :
  chains s !! i = Some c →
  ch_phase c = Executing →
  wf s →
  wf (set_chains (<[i := set_phase Finishing c]> (chains s))
        (set_handles (settle_handle (ch_handle c) o (handles s)) s)).
Proof.
  intros Hi Hph Hwf.
  pose proof (wf_settled _ Hwf) as Hd.
  apply (wf_set_phase Finishing i c s Hi) in Hwf; [|by intros [[=]|[=]]|done].
  change (set_chains ?cs (set_handles ?hs s))
    with (set_handles hs (set_chains cs s)).
  apply wf_set_handles; [apply settle_handle_length| |done]. proj.
  assert (Hnew : set_phase Finishing c ∈ <[i := set_phase Finishing c]> (chains s))
    by (by eapply elem_insert_new).
  intros h o' Hh.
  destruct (decide (h = ch_handle c)) as [->|Hne].
  { exists (set_phase Finishing c). split_and!; [done..|]. by intros [[=]|[=]]. }
  assert (Hold : handles s !! h = Some (Settled o')).
  { unfold settle_handle in Hh.
    destruct (handles s !! ch_handle c); [|done].
    by rewrite list_lookup_insert_ne in Hh. }
  apply Hd in Hold as (c' & Hin & Hh' & Hun).
  destruct (elem_insert_keep _ i (set_phase Finishing c) _ _ Hi Hin)
    as [->|Hin']; [done|]. by exists c'.
Qed.

Lemma wf_finish (i : nat) (c : chain) (s : state) :
  chains s !! i = Some c →
  ch_phase c = Finishing →
  wf s →
  wf (set_chains (<[i := set_phase Done c]> (chains s))
        (set_promises (delete (ch_action c) (promises s))
           (set_running (running s ∖ {[ch_action c]}) s))).
Proof.
  intros Hi Hph [Hs Ht Hp Ho Hc Hd Hr].
  assert (Hnew : set_phase Done c ∈ <[i := set_phase Done c]> (chains s))
    by (by eapply elem_insert_new).
  split; unfold tickets in *; proj; try done.
  - by rewrite (fmap_insert_same ch_ticket _ _ _ c).
  - by rewrite (fmap_insert_same ch_ticket _ _ _ c).
  - intros a h [_ ?]%lookup_delete_Some. by eapply Hp.
  - intros a a' t Hin [_ ?]%lookup_delete_Some. by eapply Ho.
  - intros c' [->|Hin]%elem_insert_inv; [|by apply Hc].
    cbn. apply Hc. apply list_elem_of_lookup. eauto.
  - intros h o (c' & Hin & Hh & Hun)%Hd.
    destruct (elem_insert_keep _ i (set_phase Done c) _ _ Hi Hin) as [->|Hin'].
    + exists (set_phase Done c). split_and!; [done..|]. by intros [[=]|[=]].
    + by exists c'.
  - intros a [(c' & Hin & Ha & Hac)%Hr Hne%not_elem_of_singleton]%elem_of_difference.
    destruct (elem_insert_keep _ i (set_phase Done c) _ _ Hi Hin) as [->|Hin'];
      [done|]. by exists c'.
Qed.

Lemma wf_step (k : Z) (ev : event) (s : state) : wf s → wf (step k ev s).
Proof.
  intros Hwf. destruct ev as [a| | |i|i o|i]; cbn [step].
  - by apply wf_push.
  - by apply wf_clear.
  - destruct (triggers s); [done|]. by apply wf_run, wf_set_triggers.
  - destruct (chains s !! i) as [c|] eqn:Hi; [|done].
    destruct (ch_phase c) eqn:Hph; try done. case_decide as Hfifo; [|done].
    apply wf_set_phase; [done| |done..]. unfold unsettled. rewrite Hph. tauto.
  - destruct (chains s !! i) as [c|] eqn:Hi; [|done].
    destruct (ch_phase c) eqn:Hph; try done. by apply wf_settle.
  - destruct (chains s !! i) as [c|] eqn:Hi; [|done].
    destruct (ch_phase c) eqn:Hph; try done.
    unfold cleanup. by apply wf_run, wf_finish.
Qed.

Lemma wf_exec (k : Z) (tr : list event) (s : state) :
  wf s → wf (exec k tr s).
Proof.
  revert s. induction tr as [|ev tr IH]; intros s Hwf; [done|].
  apply IH. by apply wf_step.
Qed.

Lemma wf_reachable (k : Z) (tr : list event) : wf (exec k tr init).
Proof. apply wf_exec, wf_init. Qed.

(** *** Start order *)

Lemma sorted_lookup_lt (l : list nat) (i j x y : nat) :
  StronglySorted lt l → l !! i = Some x → l !! j = Some y → i < j → x < y.
Proof.
  intros Hs. revert i j. induction Hs as [|z l Hs IH Hall]; intros i j Hi Hj Hij.
  - by rewrite lookup_nil in Hi.
  - destruct j as [|j]; [lia|]. destruct i as [|i]; cbn in Hi, Hj.
    + injection Hi as <-. eapply Forall_forall in Hall; [exact Hall|].
      apply list_elem_of_lookup. eauto.
    + apply (IH i j); [done..|lia].
Qed.

Lemma handles_length_run (k : Z) (s : state) :
  length (handles (run k s)) = length (handles s).
Proof.
  by destruct (run_cases k s) as [[_ ->]|[(a & t & q & _ & _ & _ & ->)|
    (a & t & q & h & _ & _ & _ & ->)]].
Qed.

Lemma handles_length_step (k : Z) (ev : event) (s : state) :
  length (handles s) ≤ length (handles (step k ev s)).
Proof.
  destruct ev as [a| | |i|i o|i]; cbn [step].
  - unfold push. proj. rewrite length_app. lia.
  - done.
  - destruct (triggers s); [done|]. by rewrite handles_length_run.
  - destruct (chains s !! i) as [c|]; [|done]. destruct (ch_phase c); try done.
    by case_decide.
  - destruct (chains s !! i) as [c|]; [|done].
    destruct (ch_phase c); try done. proj. by rewrite settle_handle_length.
  - destruct (chains s !! i) as [c|]; [|done].
    destruct (ch_phase c); try done. unfold cleanup.
    by rewrite handles_length_run.
Qed.

Lemma handles_length_exec (k : Z) (tr : list event) (s : state) :
  length (handles s) ≤ length (handles (exec k tr s)).
Proof.
  revert s. induction tr as [|ev tr IH]; intros s; [done|].
  etrans; [apply (handles_length_step k ev)|apply IH].
Qed.

Lemma in_order_snoc (cs : list chain) (c : chain) :
  ¬ invoked c → invoked_in_order cs → invoked_in_order (cs ++ [c]).
Proof.
  intros Hc Hcs i j ci cj Hi Hj Hlt Hinv.
  destruct (decide (j < length cs)) as [Hj'|Hj'].
  - rewrite lookup_app_l in Hi, Hj by lia. by eapply (Hcs i j).
  - pose proof (lookup_lt_Some _ _ _ Hj) as Hlen.
    rewrite length_app in Hlen. cbn in Hlen.
    rewrite lookup_app_r in Hj by lia.
    replace (j - length cs) with 0 in Hj by lia. by injection Hj as <-.
Qed.

Lemma in_order_update (cs : list chain) (i0 : nat) (c c' : chain) :
  cs !! i0 = Some c → invoked c' →
  invoked c ∨ Forall invoked (take i0 cs) →
  invoked_in_order cs → invoked_in_order (<[i0 := c']> cs).
Proof.
  intros Hi0 Hc' Hearly Hcs i j ci cj Hi Hj Hlt Hinv.
  destruct (decide (i = i0)) as [->|Hne].
  { rewrite list_lookup_insert_eq in Hi by (by eapply lookup_lt_Some).
    by injection Hi as <-. }
  rewrite list_lookup_insert_ne in Hi by done.
  destruct (decide (j = i0)) as [->|Hne'].
  - destruct Hearly as [Hc|Hall].
    + by eapply (Hcs i i0).
    + eapply Forall_lookup_1; [exact Hall|]. by rewrite lookup_take_lt.
  - rewrite list_lookup_insert_ne in Hj by done. by eapply (Hcs i j).
Qed.

Lemma in_order_run (k : Z) (s : state) :
  invoked_in_order (chains s) → invoked_in_order (chains (run k s)).
Proof.
  intros Hs.
  destruct (run_cases k s) as [[_ ->]|[(a & t & q & _ & _ & _ & ->)|
    (a & t & q & h & _ & _ & _ & ->)]]; [done..|]. proj.
  apply in_order_snoc; [|done]. unfold invoked. cbn. tauto.
Qed.

Lemma in_order_step (k : Z) (ev : event) (s : state) :
  invoked_in_order (chains s) → invoked_in_order (chains (step k ev s)).
Proof.
  intros Hs. destruct ev as [a| | |i|i o|i]; cbn [step].
  - done.
  - done.
  - destruct (triggers s); [done|]. by apply in_order_run.
  - destruct (chains s !! i) as [c|] eqn:Hi; [|done].
    destruct (ch_phase c) eqn:Hph; try done. case_decide as Hfifo; [|done].
    proj. eapply in_order_update; [done| |by right|done]. by unfold invoked.
  - destruct (chains s !! i) as [c|] eqn:Hi; [|done].
    destruct (ch_phase c) eqn:Hph; try done. proj.
    eapply in_order_update; [done| |left|done]; unfold invoked; [done|].
    by rewrite Hph.
  - destruct (chains s !! i) as [c|] eqn:Hi; [|done].
    destruct (ch_phase c) eqn:Hph; try done. unfold cleanup.
    apply in_order_run. proj.
    eapply in_order_update; [done| |left|done]; unfold invoked; [done|].
    by rewrite Hph.
Qed.

Lemma in_order_exec (k : Z) (tr : list event) (s : state) :
  invoked_in_order (chains s) → invoked_in_order (chains (exec k tr s)).
Proof.
  revert s. induction tr as [|ev tr IH]; intros s Hs; [done|].
  apply IH. by apply in_order_step.
Qed.

(** C3. Tickets are handed out in push order: a later call of [push]
    returns a larger ticket than an earlier one.  And the occurrences are
    started in ticket order: of two started occurrences, the one pushed
    first has the smaller index in the list of chains, which [run] extends
    at its end each time it starts an occurrence; and when the callable of
    a chain has been called, so have the callables of the chains before it.
    Nothing is assumed about the order in which the tasks complete. *)
Theorem fifo_start_order (k : Z) (tr : list event) :
  let s := exec k tr init in
  (∀ a b tr', (push a s).1 < (push b (exec k tr' (push a s).2)).1) ∧
  (∀ i j ci cj,
     chains s !! i = Some ci → chains s !! j = Some cj →
     ch_ticket ci < ch_ticket cj → i < j ∧ (invoked cj → invoked ci)).
Proof.
  intros s. split.
  - intros a b tr'. cbn [push fst].
    pose proof (handles_length_exec k tr' (push a s).2) as Hle.
    unfold push in Hle at 1. proj. rewrite length_app in Hle.
    cbn [length] in Hle. lia.
  - intros i j ci cj Hi Hj Hlt.
    assert (i < j) as Hij; [|split; [done|]].
    2: { by apply (in_order_exec k tr init) with i j. }
    pose proof (wf_sorted _ (wf_reachable k tr)) as Hs. fold s in Hs.
    apply StronglySorted_app_1_l in Hs.
    destruct (decide (i < j)) as [|Hge]; [done|].
    destruct (decide (i = j)) as [->|Hne]; [rewrite Hi in Hj; simplify_eq; lia|].
    assert (ch_ticket cj < ch_ticket ci); [|lia].
    apply (sorted_lookup_lt (ch_ticket <$> chains s) j i); [done|..|lia].
    + by rewrite list_lookup_fmap, Hj.
    + by rewrite list_lookup_fmap, Hi.
Qed.

Lemma fifo_start_order_witness :
  let s := exec 2 [Push 7; Push 8; Tick; Tick] init in
  chains s !! 0 = Some (Chain 7 0 0 Scheduled) ∧
  chains s !! 1 = Some (Chain 8 1 1 Scheduled) ∧
  0 < 1.
Proof.
  intros s.
  assert (H0 : chains s !! 0 = Some (Chain 7 0 0 Scheduled))
    by (vm_compute; reflexivity).
  assert (H1 : chains s !! 1 = Some (Chain 8 1 1 Scheduled))
    by (vm_compute; reflexivity).
  split_and!; [exact H0|exact H1|].
  apply (proj2 (fifo_start_order 2 [Push 7; Push 8; Tick; Tick])
           0 1 _ _ H0 H1).
  cbn. lia.
Defined.

(** *** A limit that is not positive *)

Lemma run_nonpositive (k : Z) (s : state) : (k ≤ 0)%Z → run k s = s.
Proof. intros Hk. unfold run. case_decide; [done|lia]. Qed.

Lemma idle_step (k : Z) (ev : event) (s : state) :
  (k ≤ 0)%Z → idle s → idle (step k ev s).
Proof.
  intros Hk (Hc & Hr & Ht & Hh). unfold idle.
  destruct ev as [a| | |i|i o|i]; cbn [step].
  - unfold push. proj. split_and!; [done..|].
    apply Forall_app. split; [done|]. by repeat constructor.
  - done.
  - destruct (triggers s); [done|]. by rewrite run_nonpositive.
  - by rewrite Hc, lookup_nil.
  - by rewrite Hc, lookup_nil.
  - by rewrite Hc, lookup_nil.
Qed.

Lemma idle_exec (k : Z) (tr : list event) (s : state) :
  (k ≤ 0)%Z → idle s → idle (exec k tr s).
Proof.
  intros Hk. revert s. induction tr as [|ev tr IH]; intros s Hs; [done|].
  apply IH. by apply idle_step.
Qed.

(** C10. With a limit of zero or less, [push] still hands out a promise and
    appends the callable to the queue, but along every run no occurrence is
    ever started, the running set stays empty, nothing is thrown and every
    promise handed out stays pending. *)
Theorem nonpositive_limit_starts_nothing (k : Z) (tr : list event) :
  (k ≤ 0)%Z →
  let s := exec k tr init in
  (∀ a, (push a s).1 = length (handles s) ∧
        handles (push a s).2 !! (push a s).1 = Some Pending ∧
        queue (push a s).2 = queue s ++ [(a, (push a s).1)]) ∧
  chains s = [] ∧ running s = ∅ ∧ thrown s = [] ∧
  (∀ h p, handles s !! h = Some p → p = Pending).
Proof.
  intros Hk s. split.
  - intros a. unfold push. proj. split_and!; [done| |done].
    rewrite lookup_app_r by done. by rewrite Nat.sub_diag.
  - destruct (idle_exec k tr init Hk) as (Hc & Hr & Ht & Hh).
    { by repeat split. }
    split_and!; [done..|]. intros h p Hp.
    eapply Forall_forall in Hh; [exact Hh|].
    apply list_elem_of_lookup. eauto.
Qed.

Lemma nonpositive_limit_starts_nothing_witness :
  let s := exec 0 [Push 3; Tick; Push 4; Tick; Invoke 0] init in
  (∀ a, (push a s).1 = length (handles s) ∧
        handles (push a s).2 !! (push a s).1 = Some Pending ∧
        queue (push a s).2 = queue s ++ [(a, (push a s).1)]) ∧
  chains s = [] ∧ running s = ∅ ∧ thrown s = [] ∧
  (∀ h p, handles s !! h = Some p → p = Pending).
Proof. apply (nonpositive_limit_starts_nothing 0). lia. Defined.

(** *** How the promise store changes *)

Lemma handles_run (k : Z) (s : state) : handles (run k s) = handles s.
Proof.
  by destruct (run_cases k s) as [[_ ->]|[(a & t & q & _ & _ & _ & ->)|
    (a & t & q & h & _ & _ & _ & ->)]].
Qed.

Lemma promises_run (k : Z) (s : state) : promises (run k s) = promises s.
Proof.
  by destruct (run_cases k s) as [[_ ->]|[(a & t & q & _ & _ & _ & ->)|
    (a & t & q & h & _ & _ & _ & ->)]].
Qed.

Lemma settle_handle_ne (h h' : handle) (o : outcome value)
    (hs : list (pstate value)) :
  h ≠ h' → settle_handle h' o hs !! h = hs !! h.
Proof.
  intros Hne. unfold settle_handle. destruct (hs !! h'); [|done].
  by rewrite list_lookup_insert_ne.
Qed.

Lemma settle_handle_pending (h : handle) (o : outcome value)
    (hs : list (pstate value)) :
  hs !! h = Some Pending →
  settle_handle h o hs = <[h := Settled o]> hs ∧
  settle_handle h o hs !! h = Some (Settled o).
Proof.
  intros Hh. unfold settle_handle. rewrite Hh. split; [done|].
  apply list_lookup_insert_eq. by eapply lookup_lt_Some.
Qed.

Lemma settle_handle_settled (h h' : handle) (o o' : outcome value)
    (hs : list (pstate value)) :
  hs !! h = Some (Settled o) → settle_handle h' o' hs !! h = Some (Settled o).
Proof.
  intros Hh. destruct (decide (h = h')) as [<-|Hne].
  - unfold settle_handle. rewrite Hh. cbn.
    apply list_lookup_insert_eq. by eapply lookup_lt_Some.
  - by rewrite settle_handle_ne.
Qed.

(** A settled promise stays as it is. *)
Lemma settled_step (k : Z) (ev : event) (s : state) (h : handle)
    (o : outcome value) :
  handles s !! h = Some (Settled o) →
  handles (step k ev s) !! h = Some (Settled o).
Proof.
  intros Hh. destruct ev as [a| | |i|i o'|i]; cbn [step].
  - unfold push. proj. rewrite lookup_app_l; [done|]. by eapply lookup_lt_Some.
  - done.
  - destruct (triggers s); [done|]. by rewrite handles_run.
  - destruct (chains s !! i) as [c|]; [|done]. destruct (ch_phase c); try done.
    by case_decide.
  - destruct (chains s !! i) as [c|]; [|done].
    destruct (ch_phase c); try done. proj. by apply settle_handle_settled.
  - destruct (chains s !! i) as [c|]; [|done].
    destruct (ch_phase c); try done. unfold cleanup. by rewrite handles_run.
Qed.

Lemma settled_exec (k : Z) (tr : list event) (s : state) (h : handle)
    (o : outcome value) :
  handles s !! h = Some (Settled o) →
  handles (exec k tr s) !! h = Some (Settled o).
Proof.
  revert s. induction tr as [|ev tr IH]; intros s Hh; [done|].
  apply IH. by apply settled_step.
Qed.

(** *** Promises that no code can settle any more *)






(** *** [clear] *)











(** *** Runs in which no callable is pushed while it is live *)

Lemma elem_insert_index {A} (l : list A) (i : nat) (x y : A) :
  y ∈ <[i := x]> l → y = x ∨ ∃ j, j ≠ i ∧ l !! j = Some y.
Proof.
  intros [j Hj]%list_elem_of_lookup.
  destruct (decide (i = j)) as [->|Hne].
  - destruct (decide (j < length l)) as [Hlt|Hge].
    + rewrite list_lookup_insert_eq in Hj by done. left. congruence.
    + apply lookup_lt_Some in Hj. rewrite length_insert in Hj. lia.
  - rewrite list_lookup_insert_ne in Hj by done. right. eauto.
Qed.

Lemma ticket_chain_queue (s : state) (c : chain) (a : action) (t : handle) :
  wf s → c ∈ chains s → (a, t) ∈ queue s → ch_ticket c < t.
Proof.
  intros Hwf Hc Hq.
  eapply (StronglySorted_app_1_elem_of _ _ _ _ _ (wf_sorted _ Hwf)).
  - apply list_elem_of_fmap. by exists c.
  - apply list_elem_of_fmap. by exists (a, t).
Qed.

Lemma ticket_chain_inj (s : state) (i j : nat) (c c' : chain) :
  wf s → chains s !! i = Some c → chains s !! j = Some c' →
  ch_ticket c = ch_ticket c' → i = j.
Proof.
  intros Hwf Hi Hj Heq.
  pose proof (StronglySorted_app_1_l _ _ _ (wf_sorted _ Hwf)) as Hs.
  assert (Hi' : (ch_ticket <$> chains s) !! i = Some (ch_ticket c))
    by (by rewrite list_lookup_fmap, Hi).
  assert (Hj' : (ch_ticket <$> chains s) !! j = Some (ch_ticket c'))
    by (by rewrite list_lookup_fmap, Hj).
  destruct (Nat.lt_trichotomy i j) as [Hlt|[->|Hgt]]; [|done|].
  - pose proof (sorted_lookup_lt _ _ _ _ _ Hs Hi' Hj' Hlt). lia.
  - pose proof (sorted_lookup_lt _ _ _ _ _ Hs Hj' Hi' Hgt). lia.
Qed.

Lemma filter_active_update (cs : list chain) (i : nat) (c c' : chain) :
  cs !! i = Some c → active c → active c' → ch_action c' = ch_action c →
  ch_action <$> filter active (<[i := c']> cs)
  = ch_action <$> filter active cs.
Proof.
  intros Hi Hc Hc' Ha. revert i Hi.
  induction cs as [|x cs IH]; intros i Hi; [done|].
  destruct i as [|i].
  - injection Hi as ->. change (<[0 := c']> (c :: cs)) with (c' :: cs).
    rewrite !filter_cons_True by done. by rewrite !fmap_cons, Ha.
  - change (<[S i := c']> (x :: cs)) with (x :: <[i := c']> cs).
    rewrite !filter_cons. case_decide; rewrite ?fmap_cons, (IH i Hi); done.
Qed.

Lemma filter_active_done (cs : list chain) (i : nat) (c' : chain) :
  ¬ active c' →
  (ch_action <$> filter active (<[i := c']> cs))
    `sublist_of` (ch_action <$> filter active cs).
Proof.
  intros Hc'. revert i. induction cs as [|x cs IH]; intros i; [done|].
  destruct i as [|i].
  - change (<[0 := c']> (x :: cs)) with (c' :: cs).
    rewrite filter_cons_False by done. rewrite filter_cons.
    case_decide; [|done]. rewrite fmap_cons. by apply sublist_cons.
  - change (<[S i := c']> (x :: cs)) with (x :: <[i := c']> cs).
    rewrite !filter_cons. case_decide; [|apply IH].
    rewrite !fmap_cons. apply sublist_skip, IH.
Qed.

Lemma active_action_elem (cs : list chain) (c : chain) :
  c ∈ cs → active c → ch_action c ∈ ch_action <$> filter active cs.
Proof.
  intros Hc Hact. apply list_elem_of_fmap. exists c. split; [done|].
  by apply list_elem_of_filter.
Qed.

Lemma active_action_inj (cs : list chain) (i j : nat) (c c' : chain) :
  NoDup (ch_action <$> filter active cs) →
  cs !! i = Some c → cs !! j = Some c' → active c → active c' →
  ch_action c = ch_action c' → i = j.
Proof.
  revert i j. induction cs as [|x cs IH]; intros i j Hnd Hi Hj Hc Hc' Heq.
  { by rewrite lookup_nil in Hi. }
  rewrite filter_cons in Hnd.
  destruct i as [|i], j as [|j]; cbn in Hi, Hj; [done|..].
  - injection Hi as ->. rewrite decide_True, fmap_cons in Hnd by done.
    apply NoDup_cons in Hnd as [Hnotin _]. destruct Hnotin. rewrite Heq.
    apply active_action_elem; [by eapply list_elem_of_lookup_2|done].
  - injection Hj as ->. rewrite decide_True, fmap_cons in Hnd by done.
    apply NoDup_cons in Hnd as [Hnotin _]. destruct Hnotin. rewrite <-Heq.
    apply active_action_elem; [by eapply list_elem_of_lookup_2|done].
  - f_equal. apply IH; try done. case_decide; [|done].
    rewrite fmap_cons in Hnd. by apply NoDup_cons in Hnd as [_ ?].
Qed.

Lemma di_init : distinct_inv init.
Proof.
  split; try done;
    try (by intros ? Hin%elem_of_nil); try (by intros ? ? Hin%elem_of_nil).
  constructor.
Qed.

Lemma di_push (a : action) (s : state) :
  a ∉ live s → distinct_inv s → distinct_inv (push a s).2.
Proof.
  intros Hfresh [Hn Hb Hown Hw Hu Hth].
  unfold push. split; unfold live, in_flight in *; proj; try done.
  - rewrite fmap_app, app_assoc. apply NoDup_app. split_and!; [done| |].
    + by intros x Hx ->%list_elem_of_singleton.
    + apply NoDup_singleton.
  - intros x t [Hin|Hin%list_elem_of_singleton]%elem_of_app.
    + rewrite lookup_insert_ne; [by apply Hb|].
      intros ->. apply Hfresh, elem_of_app. right.
      apply list_elem_of_fmap. by exists (x, t).
    + injection Hin as -> ->. by rewrite lookup_insert_eq.
  - intros x t [Hin|Hin%list_elem_of_singleton]%elem_of_app.
    + rewrite lookup_app_l; [by eapply Hw|].
      eapply lookup_lt_Some. by eapply Hw.
    + injection Hin as -> ->. rewrite lookup_app_r by done.
      by rewrite Nat.sub_diag.
  - intros c Hc Hun. rewrite lookup_app_l; [by apply Hu|].
    eapply lookup_lt_Some. by apply Hu.
Qed.

Lemma di_clear (s : state) : distinct_inv s → distinct_inv (clear s).
Proof.
  intros [Hn Hb Hown Hw Hu Hth].
  unfold clear. split; unfold live, in_flight in *; proj; try done.
  - cbn. rewrite app_nil_r. by apply NoDup_app in Hn as (? & _ & _).
  - intros a t Hin. by apply elem_of_nil in Hin.
  - intros a t Hin. by apply elem_of_nil in Hin.
Qed.

Lemma di_set_triggers (n : nat) (s : state) :
  distinct_inv s → distinct_inv (set_triggers n s).
Proof. by intros []. Qed.

(** No [run] throws: the callable at the head of the queue has its entry. *)
Lemma di_run_cases (k : Z) (s : state) :
  distinct_inv s →
  (((k ≤ Z.of_nat (size (running s)))%Z ∨ queue s = []) ∧ run k s = s) ∨
  ∃ a t q, (Z.of_nat (size (running s)) < k)%Z ∧ queue s = (a, t) :: q ∧
    run k s = set_chains (chains s ++ [Chain a t t Scheduled])
                (set_running ({[a]} ∪ running s) (set_queue q s)).
Proof.
  intros Hdi.
  destruct (run_cases k s) as [[Hwhy ?]|[(a & t & q & _ & Hq & Hpa & _)|
    (a & t & q & h & Hlt & Hq & Hpa & Hrun)]]; [by left|..].
  - rewrite (di_binding _ Hdi a t) in Hpa; [done|]. rewrite Hq. by left.
  - rewrite (di_binding _ Hdi a t) in Hpa by (rewrite Hq; by left).
    injection Hpa as <-. right. by exists a, t, q.
Qed.

Lemma di_run (k : Z) (s : state) : distinct_inv s → distinct_inv (run k s).
Proof.
  intros Hdi.
  destruct (di_run_cases k s Hdi) as [[_ ->]|(a & t & q & _ & Hq & ->)]; [done|].
  destruct Hdi as [Hn Hb Hown Hw Hu Hth].
  unfold live, in_flight in *. rewrite Hq in *.
  split; unfold live, in_flight; proj; try done.
  - rewrite filter_app, filter_cons_True, filter_nil by done.
    by rewrite fmap_app, <-app_assoc.
  - intros x t' Hin. apply Hb. by right.
  - intros c [Hin| ->%list_elem_of_singleton]%elem_of_app; [by apply Hown|done].
  - intros x t' Hin. apply (Hw x). by right.
  - intros c [Hin| ->%list_elem_of_singleton]%elem_of_app Hun; [by apply Hu|].
    cbn. apply (Hw a). by left.
Qed.

Lemma di_set_phase (p : phase) (i : nat) (c : chain) (s : state) :
  chains s !! i = Some c →
  (unsettled (set_phase p c) → unsettled c) →
  active c → p ≠ Done →
  distinct_inv s →
  distinct_inv (set_chains (<[i := set_phase p c]> (chains s)) s).
Proof.
  intros Hi Hph Hact Hp [Hn Hb Hown Hw Hu Hth].
  assert (Hc : c ∈ chains s) by (by eapply list_elem_of_lookup_2).
  split; unfold live, in_flight in *; proj; try done.
  - by rewrite (filter_active_update _ _ c).
  - intros c' [->|Hin]%elem_insert_inv; [cbn|]; by apply Hown.
  - intros c' [->|Hin]%elem_insert_inv Hun; [|by apply Hu].
    cbn. apply Hu; [done|tauto].
Qed.

Lemma di_settle (i : nat) (c : chain) (o : outcome value) (s : state) :
  chains s !! i = Some c →
  ch_phase c = Executing →
  wf s → distinct_inv s →
  distinct_inv
    (set_chains (<[i := set_phase Finishing c]> (chains s))
       (set_handles (settle_handle (ch_handle c) o (handles s)) s)).
Proof.
  intros Hi Hph Hwf [Hn Hb Hown Hw Hu Hth].
  assert (Hc : c ∈ chains s) by (by eapply list_elem_of_lookup_2).
  split; unfold live, in_flight in *; proj; try done.
  - rewrite (filter_active_update _ _ c); try done.
    unfold active. by rewrite Hph.
  - intros c' [->|Hin]%elem_insert_inv; [cbn|]; by apply Hown.
  - intros a t Hin. rewrite settle_handle_ne; [by eapply Hw|].
    pose proof (ticket_chain_queue s c a t Hwf Hc Hin). rewrite Hown by done. lia.
  - intros c' [->|(j & Hne & Hj)]%elem_insert_index Hun.
    { by destruct Hun as [[=]|[=]]. }
    assert (Hc' : c' ∈ chains s) by (by eapply list_elem_of_lookup_2).
    rewrite settle_handle_ne; [by apply Hu|].
    rewrite !Hown by done. intros Heq.
    by pose proof (ticket_chain_inj s j i c' c Hwf Hj Hi Heq).
Qed.

Lemma di_finish (i : nat) (c : chain) (s : state) :
  chains s !! i = Some c →
  ch_phase c = Finishing →
  distinct_inv s →
  distinct_inv
    (set_chains (<[i := set_phase Done c]> (chains s))
       (set_promises (delete (ch_action c) (promises s))
          (set_running (running s ∖ {[ch_action c]}) s))).
Proof.
  intros Hi Hph [Hn Hb Hown Hw Hu Hth].
  assert (Hc : c ∈ chains s) by (by eapply list_elem_of_lookup_2).
  assert (Hact : active c) by (unfold active; by rewrite Hph).
  split; unfold live, in_flight in *; proj; try done.
  - apply NoDup_app in Hn as (Hn1 & Hdisj & Hn2).
    assert (Hsub := filter_active_done (chains s) i (set_phase Done c)
                      ltac:(by intros [])).
    apply NoDup_app. split_and!; [exact (sublist_NoDup _ _ Hn1 Hsub)| |done].
    intros x Hx. apply Hdisj. by apply (elem_of_sublist _ _ _ Hx).
  - intros a t Hin. rewrite lookup_delete_ne; [by apply Hb|].
    intros Heq. apply NoDup_app in Hn as (_ & Hdisj & _).
    apply (Hdisj (ch_action c)).
    + by apply active_action_elem.
    + apply list_elem_of_fmap. exists (a, t). by rewrite Heq.
  - intros c' [->|Hin]%elem_insert_inv; [cbn|]; by apply Hown.
  - intros c' [->|Hin]%elem_insert_inv Hun; [|by apply Hu].
    by destruct Hun as [[=]|[=]].
Qed.

Lemma di_step (k : Z) (ev : event) (s : state) :
  (∀ a, ev = Push a → a ∉ live s) →
  wf s → distinct_inv s → distinct_inv (step k ev s).
Proof.
  intros Hfresh Hwf Hdi. destruct ev as [a| | |i|i o|i]; cbn [step].
  - apply di_push; [by apply Hfresh|done].
  - by apply di_clear.
  - destruct (triggers s); [done|]. by apply di_run, di_set_triggers.
  - destruct (chains s !! i) as [c|] eqn:Hi; [|done].
    destruct (ch_phase c) eqn:Hph; try done. case_decide as Hfifo; [|done].
    apply di_set_phase; [done| | |done..].
    + unfold unsettled. rewrite Hph. tauto.
    + unfold active. by rewrite Hph.
  - destruct (chains s !! i) as [c|] eqn:Hi; [|done].
    destruct (ch_phase c) eqn:Hph; try done. by apply di_settle.
  - destruct (chains s !! i) as [c|] eqn:Hi; [|done].
    destruct (ch_phase c) eqn:Hph; try done.
    unfold cleanup. by apply di_run, di_finish.
Qed.

Lemma di_step_internal (k : Z) (ev : event) (s : state) :
  internal ev → wf s → distinct_inv s → distinct_inv (step k ev s).
Proof. intros Hint. apply di_step. intros a ->. by destruct Hint. Qed.


Lemma no_repush_cons (k : Z) (ev : event) (tr : list event) (s : state) :
  no_repush k (ev :: tr) s = true →
  (∀ a, ev = Push a → a ∉ live s) ∧ no_repush k tr (step k ev s) = true.
Proof.
  cbn [no_repush]. intros [Hev Htr]%andb_prop. split; [|done].
  intros a ->. by apply bool_decide_eq_true_1 in Hev.
Qed.

(** Induction along a run in which no callable is pushed while it is live. *)
Lemma distinct_run_ind (k : Z) (Q : state → Prop) :
  (∀ ev s, wf s → distinct_inv s → Q s → Q (step k ev s)) →
  ∀ tr s, no_repush k tr s = true →
    wf s → distinct_inv s → Q s →
    wf (exec k tr s) ∧ distinct_inv (exec k tr s) ∧ Q (exec k tr s).
Proof.
  intros Hstep tr.
  induction tr as [|ev tr IH]; intros s Hnr Hwf Hdi HQ; [done|].
  apply no_repush_cons in Hnr as [Hev Hnr].
  apply (IH (step k ev s)); [done|..].
  - by apply wf_step.
  - by apply di_step.
  - by apply Hstep.
Qed.

Lemma di_reachable (k : Z) (tr : list event) :
  no_repush k tr init = true → distinct_inv (exec k tr init).
Proof.
  intros Hnr.
  by destruct (distinct_run_ind k (λ _, True) ltac:(done) tr init Hnr
                 wf_init di_init I) as (_ & ? & _).
Qed.

(** *** No lost wake-up *)

Lemma wakeup_run (k : Z) (s : state) :
  (1 ≤ k)%Z → wf s → distinct_inv s → wakeup (run k s).
Proof.
  intros Hk Hwf Hdi. unfold run. case_decide as Hfull.
  - intros _. right.
    destruct (set_choose_L (running s)) as [a Ha].
    { intros Hempty. rewrite Hempty, size_empty in Hfull. lia. }
    apply (wf_running _ Hwf) in Ha as (c & Hc & _ & Hact). by exists c.
  - destruct (queue s) as [|[a t] q] eqn:Hq; [by intros Hne|]. proj.
    rewrite (di_binding _ Hdi a t) by (rewrite Hq; by left).
    intros _. right. exists (Chain a t t Scheduled). split; [|done].
    proj. apply elem_of_app. right. by apply list_elem_of_singleton.
Qed.

Lemma wakeup_set_phase (p : phase) (i : nat) (c : chain) (s : state) :
  chains s !! i = Some c → p ≠ Done → wakeup s →
  wakeup (set_chains (<[i := set_phase p c]> (chains s)) s).
Proof.
  intros Hi Hp Hw Hq. proj. destruct (Hw Hq) as [?|(c' & Hc' & Hact)]; [by left|].
  right. destruct (elem_insert_keep _ i (set_phase p c) _ _ Hi Hc') as [->|Hin].
  - exists (set_phase p c). split; [by eapply elem_insert_new|done].
  - by exists c'.
Qed.

Lemma wakeup_step (k : Z) (ev : event) (s : state) :
  (1 ≤ k)%Z → wf s → distinct_inv s → wakeup s → wakeup (step k ev s).
Proof.
  intros Hk Hwf Hdi Hw. destruct ev as [a| | |i|i o|i]; cbn [step].
  - intros _. left. unfold push. proj. lia.
  - by intros Hq.
  - destruct (triggers s) as [|n]; [done|].
    apply (wakeup_run k); [done|by apply wf_set_triggers|
      by apply di_set_triggers].
  - destruct (chains s !! i) as [c|] eqn:Hi; [|done].
    destruct (ch_phase c) eqn:Hph; try done. case_decide as Hfifo; [|done]. by apply wakeup_set_phase.
  - destruct (chains s !! i) as [c|] eqn:Hi; [|done].
    destruct (ch_phase c) eqn:Hph; try done.
    change (set_chains ?cs (set_handles ?hs s))
      with (set_handles hs (set_chains cs s)).
    by apply (wakeup_set_phase Finishing i c s Hi).
  - destruct (chains s !! i) as [c|] eqn:Hi; [|done].
    destruct (ch_phase c) eqn:Hph; try done.
    unfold cleanup. apply (wakeup_run k); [done|by apply wf_finish|
      by apply di_finish].
Qed.

Lemma wakeup_reachable (k : Z) (tr : list event) :
  (1 ≤ k)%Z → no_repush k tr init = true → wakeup (exec k tr init).
Proof.
  intros Hk Hnr.
  destruct (distinct_run_ind k wakeup) with tr init as (_ & _ & ?);
    [|done|apply wf_init|apply di_init|by intros Hq|done].
  intros ev s. by apply wakeup_step.
Qed.

(** *** What [clear] leaves as it is *)




(** *** Every task gets its turn *)

Lemma sum_work_update (cs : list chain) (i : nat) (c c' : chain) :
  cs !! i = Some c →
  sum_list (chain_work <$> <[i := c']> cs) + chain_work c
  = sum_list (chain_work <$> cs) + chain_work c'.
Proof.
  revert i. induction cs as [|x cs IH]; intros i Hi; [done|].
  destruct i as [|i].
  - injection Hi as ->. change (<[0 := c']> (c :: cs)) with (c' :: cs).
    rewrite !fmap_cons. cbn [sum_list_with id]. lia.
  - specialize (IH i Hi).
    change (<[S i := c']> (x :: cs)) with (x :: <[i := c']> cs).
    rewrite !fmap_cons. cbn [sum_list_with id]. lia.
Qed.

Lemma first_active (cs : list chain) :
  Forall (λ c, ch_phase c = Done) cs ∨
  ∃ i c, cs !! i = Some c ∧ ch_phase c ≠ Done ∧
         Forall (λ c, ch_phase c = Done) (take i cs).
Proof.
  induction cs as [|x cs IH]; [by left|].
  destruct (decide (ch_phase x = Done)) as [Hx|Hx].
  - destruct IH as [Hall|(i & c & Hi & Hc & Hbefore)].
    + left. by constructor.
    + right. exists (S i), c. split_and!; [done..|]. cbn. by constructor.
  - right. exists 0, x. split_and!; [done..|]. cbn. constructor.
Qed.

Lemma work_run (k : Z) (s : state) :
  distinct_inv s →
  (((k ≤ Z.of_nat (size (running s)))%Z ∨ queue s = []) ∧ run k s = s) ∨
  (work (run k s) < work s).
Proof.
  intros Hdi.
  destruct (di_run_cases k s Hdi) as [?|(a & t & q & _ & Hq & ->)];
    [by left|right].
  unfold work. proj. rewrite Hq, fmap_app, sum_list_with_app. cbn. lia.
Qed.

Lemma outstanding_run (k : Z) (t : handle) (s : state) :
  distinct_inv s → outstanding t s → outstanding t (run k s).
Proof.
  intros Hdi Ht.
  destruct (di_run_cases k s Hdi) as [[_ ->]|(a & t' & q & _ & Hq & ->)];
    [done|].
  unfold outstanding in *. proj. rewrite Hq in Ht.
  destruct Ht as [[->|Ht]%elem_of_cons|(c & Hc & Hun & Hct)].
  - right. exists (Chain a t' t' Scheduled). split_and!; [|by left|done].
    apply elem_of_app. right. by apply list_elem_of_singleton.
  - by left.
  - right. exists c. split_and!; [|done..]. apply elem_of_app. by left.
Qed.

Lemma outstanding_set_phase (p : phase) (i : nat) (c : chain) (t : handle)
    (s : state) :
  chains s !! i = Some c →
  (unsettled c → ch_ticket c = t → unsettled (set_phase p c)) →
  outstanding t s →
  outstanding t (set_chains (<[i := set_phase p c]> (chains s)) s).
Proof.
  intros Hi Hp [Ht|(c' & Hc' & Hun & Hct)]; [by left|right].
  destruct (elem_insert_keep _ i (set_phase p c) _ _ Hi Hc') as [->|Hin].
  - exists (set_phase p c). split_and!; [by eapply elem_insert_new|auto|done].
  - by exists c'.
Qed.

(** From every state of a run in which no callable is pushed while it is
    live, the event loop alone can bring the queue to rest, each task
    settling with the outcome [res] gives for its ticket. *)
Lemma drain (k : Z) (res : handle → outcome value) (n : nat) :
  (1 ≤ k)%Z →
  ∀ s : state,
    work s ≤ n → wf s → distinct_inv s → wakeup s →
    ∃ tr', Forall internal tr' ∧ quiescent (exec k tr' s) ∧
      ∀ t, outstanding t s →
        handles (exec k tr' s) !! t = Some (Settled (res t)).
Proof.
  intros Hk. induction n as [n IH] using lt_wf_ind.
  intros s Hn Hwf Hdi Hw.
  assert (Hnext : ∀ ev, internal ev → work (step k ev s) < work s →
            (∀ t, outstanding t s →
               outstanding t (step k ev s) ∨
               handles (step k ev s) !! t = Some (Settled (res t))) →
            ∃ tr', Forall internal tr' ∧ quiescent (exec k tr' s) ∧
              ∀ t, outstanding t s →
                handles (exec k tr' s) !! t = Some (Settled (res t))).
  { intros ev Hint Hless Hout.
    destruct (IH (work (step k ev s)) ltac:(lia) (step k ev s))
      as (tr1 & Htr1 & Hq1 & Hs1); [done|..].
    - by apply wf_step.
    - by apply di_step_internal.
    - by apply wakeup_step.
    - exists (ev :: tr1). split_and!; [by constructor|done|].
      intros t Ht. destruct (Hout t Ht) as [Ht1|Ht1]; [by apply Hs1|].
      by apply (settled_exec k tr1 (step k ev s)). }
  destruct (first_active (chains s)) as [Hall|(i & c & Hi & Hc & Hbefore)].
  - destruct (queue s) as [|[a t] q] eqn:Hq.
    + exists []. split_and!; [done|by split|].
      intros t [Ht|(c & Hc & [Hun|Hun] & _)].
      * rewrite Hq in Ht. by apply elem_of_nil in Ht.
      * eapply Forall_forall in Hall; [|done]. cbn in Hall. congruence.
      * eapply Forall_forall in Hall; [|done]. cbn in Hall. congruence.
    + assert (Hrun : running s = ∅).
      { apply set_eq. intros x. split; [|by intros ?%not_elem_of_empty].
        intros (c & Hc & _ & Hact)%(wf_running _ Hwf).
        eapply Forall_forall in Hall; [|done]. by destruct Hact. }
      destruct (triggers s) as [|m] eqn:Htr.
      { destruct Hw as [Hw|(c & Hc & Hact)]; [by rewrite Hq|lia|].
        eapply Forall_forall in Hall; [|done]. by destruct Hact. }
      apply (Hnext Tick); [done|..]; cbn [step]; rewrite Htr.
      * destruct (work_run k (set_triggers m s)) as [[[Hfull|Hempty] _]|Hlt];
          [by apply di_set_triggers|..]; proj.
        -- rewrite Hrun, size_empty in Hfull. lia.
        -- congruence.
        -- done.
      * intros t' Ht'. left. apply (outstanding_run k); [|done].
        by apply di_set_triggers.
  - assert (Hcin : c ∈ chains s) by (by eapply list_elem_of_lookup_2).
    destruct (ch_phase c) eqn:Hph; [| | |done].
    + (* the callable has not been called *)
      apply (Hnext (Invoke i)); [done|..]; cbn [step]; rewrite Hi, Hph.
      * rewrite decide_True.
        2: { eapply Forall_impl; [exact Hbefore|]. intros x Hx.
             unfold invoked. by rewrite Hx. }
        unfold work. proj.
        pose proof (sum_work_update (chains s) i c
                      (set_phase Executing c) Hi) as Hsum.
        unfold chain_work at 2 4 in Hsum. cbn in Hsum. rewrite Hph in Hsum.
        lia.
      * intros t Ht. left. case_decide; [|done].
        apply outstanding_set_phase; [done| |done]. intros _ _. by right.
    + (* the task is under way: it settles with its outcome *)
      apply (Hnext (Settle i (res (ch_ticket c)))); [done|..]; cbn [step];
        rewrite Hi, Hph.
      * unfold work. proj.
        pose proof (sum_work_update (chains s) i c
                      (set_phase Finishing c) Hi) as Hsum.
        unfold chain_work at 2 4 in Hsum. cbn in Hsum. rewrite Hph in Hsum.
        lia.
      * intros t Ht. proj.
        destruct (decide (ch_ticket c = t)) as [<-|Hne].
        -- right. rewrite (di_own _ Hdi c Hcin).
           apply settle_handle_pending.
           rewrite <-(di_own _ Hdi c Hcin).
           apply (di_unsettled _ Hdi c Hcin). by right.
        -- left.
           change (set_chains ?cs (set_handles ?hs s))
             with (set_handles hs (set_chains cs s)).
           assert (Ho : outstanding t
                     (set_chains (<[i := set_phase Finishing c]> (chains s)) s)).
           { apply outstanding_set_phase; [done| |done]. by intros _ ?. }
           exact Ho.
    + (* the promise is settled: [cleanup] runs *)
      apply (Hnext (Cleanup i)); [done|..]; cbn [step]; rewrite Hi, Hph;
        unfold cleanup.
      * set (s1 := set_chains _ _).
        assert (Hless : work s1 < work s).
        { unfold work, s1. proj.
          pose proof (sum_work_update (chains s) i c
                        (set_phase Done c) Hi) as Hsum.
          unfold chain_work at 2 4 in Hsum. cbn in Hsum. rewrite Hph in Hsum.
          lia. }
        destruct (work_run k s1) as [[_ ->]|Hlt]; [|done|lia].
        by apply di_finish.
      * intros t Ht. left. apply (outstanding_run k); [by apply di_finish|].
        apply (outstanding_set_phase Done i c t
                 (set_promises (delete (ch_action c) (promises s))
                    (set_running (running s ∖ {[ch_action c]}) s)));
          [done| |done].
        intros [Hun|Hun] _; congruence.
Qed.

(** *** The chains in flight *)

Lemma flights_run (k : Z) (s : state) :
  flights_running s → flights_running (run k s).
Proof.
  intros Hs.
  destruct (run_cases k s) as [[_ ->]|[(a & t & q & _ & _ & _ & ->)|
    (a & t & q & h & _ & _ & _ & ->)]]; [done..|].
  intros c. proj.
  intros [Hc| ->%list_elem_of_singleton]%elem_of_app Hact;
    apply elem_of_union; [right; by apply Hs|left].
  by apply elem_of_singleton.
Qed.

Lemma flights_set_phase (p : phase) (i : nat) (c : chain) (s : state) :
  chains s !! i = Some c → active c →
  flights_running s →
  flights_running (set_chains (<[i := set_phase p c]> (chains s)) s).
Proof.
  intros Hi Hact Hs c'. proj. intros [->|Hc']%elem_insert_inv Hact'.
  - cbn. apply Hs; [by eapply list_elem_of_lookup_2|done].
  - by apply Hs.
Qed.

Lemma flights_step (k : Z) (ev : event) (s : state) :
  wf s → distinct_inv s → flights_running s →
  flights_running (step k ev s).
Proof.
  intros Hwf Hdi Hs. destruct ev as [a| | |i|i o|i]; cbn [step].
  - done.
  - done.
  - destruct (triggers s); [done|]. by apply flights_run.
  - destruct (chains s !! i) as [c|] eqn:Hi; [|done].
    destruct (ch_phase c) eqn:Hph; try done. case_decide as Hfifo; [|done].
    apply flights_set_phase; [done| |done]. unfold active. by rewrite Hph.
  - destruct (chains s !! i) as [c|] eqn:Hi; [|done].
    destruct (ch_phase c) eqn:Hph; try done.
    change (set_chains ?cs (set_handles ?hs s))
      with (set_handles hs (set_chains cs s)).
    apply (flights_set_phase Finishing i c s Hi); [|done].
    unfold active. by rewrite Hph.
  - destruct (chains s !! i) as [c|] eqn:Hi; [|done].
    destruct (ch_phase c) eqn:Hph; try done.
    unfold cleanup. apply flights_run. intros c'. proj.
    intros [->|(j & Hne & Hj)]%elem_insert_index Hact'; [by destruct Hact'|].
    apply elem_of_difference. split.
    + apply Hs; [by eapply list_elem_of_lookup_2|done].
    + intros Heq%elem_of_singleton. apply Hne.
      pose proof (di_nodup _ Hdi) as Hnd. unfold live, in_flight in Hnd.
      apply NoDup_app in Hnd as (Hnd & _ & _).
      apply (active_action_inj (chains s) j i c' c Hnd); try done.
      unfold active. by rewrite Hph.
Qed.

Lemma length_le_size (l : list action) (X : gset action) :
  NoDup l → (∀ x, x ∈ l → x ∈ X) → length l ≤ size X.
Proof.
  intros Hnd Hsub. rewrite <-(size_list_to_set (C := gset action) l Hnd).
  apply subseteq_size. intros x Hx%elem_of_list_to_set. by apply Hsub.
Qed.

(** Along a run in which no callable is pushed while it is live, the chains
    in flight are as many as the running set has elements at most: no more
    than the limit allows. *)
Lemma chains_in_flight_bounded (k : Z) (tr : list event) :
  (1 ≤ k)%Z → no_repush k tr init = true →
  (Z.of_nat (length (in_flight (exec k tr init))) ≤ k)%Z.
Proof.
  intros Hk Hnd. set (s := exec k tr init).
  pose proof (running_never_exceeds_limit_aux k tr Hk) as Hb. fold s in Hb.
  unfold bounded in Hb.
  pose proof (di_reachable k tr Hnd) as Hdi. fold s in Hdi.
  assert (Hfl : flights_running s).
  { destruct (distinct_run_ind k flights_running) with tr init as (_ & _ & ?);
      [|done|apply wf_init|apply di_init|by intros c Hc%elem_of_nil|done].
    intros ev s'. apply flights_step. }
  enough (length (in_flight s) ≤ size (running s)) by lia.
  rewrite <-(length_fmap ch_action). apply length_le_size.
  - pose proof (di_nodup _ Hdi) as Hn. unfold live in Hn.
    by apply NoDup_app in Hn as (Hn & _ & _).
  - intros x (c & -> & Hc)%list_elem_of_fmap.
    apply list_elem_of_filter in Hc as [Hact Hc]. by apply Hfl.
Qed.

(** With a callable pushed twice the chains in flight can be more than the
    limit, while the running set, which holds a callable once, is within
    it. *)
Example repushed_chains_exceed_limit :
  let s := exec 2 [Push 0; Push 0; Push 1; Tick; Tick; Tick] init in
  length (in_flight s) = 3 ∧ size (running s) = 2.
Proof. vm_compute. by split. Qed.

(** *** The promise of a task *)

Lemma settle_frame (k : Z) (i : nat) (o o' : outcome value) (s : state) :
  let s' := step k (Settle i o) s in
  let s'' := step k (Settle i o') s in
  queue s'' = queue s' ∧ promises s'' = promises s' ∧
  running s'' = running s' ∧ chains s'' = chains s' ∧
  triggers s'' = triggers s' ∧ thrown s'' = thrown s'.
Proof.
  cbn [step]. destruct (chains s !! i) as [c|]; [|done].
  by destruct (ch_phase c).
Qed.

(** C2, as amended.  Along a run in which no callable is pushed while an
    occurrence of it waits or is in flight:
    nothing is thrown by [run]; a waiting callable is recorded with the
    promise its push returned, and that promise is pending.  Every chain
    holds the promise that the push of its occurrence returned, pending
    until the chain settles it.  When the result of the task settles, with a
    value or with an error, that promise is settled with this outcome and no
    other promise changes; it keeps the outcome along every run that
    follows; and the state of the scheduler is the same whichever the
    outcome.  For a limit of at least one no task is left behind: while a
    callable waits, a call of [run] is still to come, and whatever outcome
    each task has, the event loop alone can bring the queue to rest with the
    promise of every waiting or running task settled with the outcome of
    that task. *)
Theorem handle_settles_with_task_outcome (k : Z) (tr : list event) :
  no_repush k tr init = true →
  let s := exec k tr init in
  thrown s = [] ∧
  ((1 ≤ k)%Z →
   wakeup s ∧
   ∀ res : handle → outcome value,
     ∃ tr', Forall internal tr' ∧ quiescent (exec k tr' s) ∧
       ∀ t, outstanding t s →
         handles (exec k tr' s) !! t = Some (Settled (res t))) ∧
  (∀ a t, (a, t) ∈ queue s →
     promises s !! a = Some t ∧ handles s !! t = Some Pending) ∧
  (∀ i c, chains s !! i = Some c →
     ch_handle c = ch_ticket c ∧
     (unsettled c → handles s !! ch_handle c = Some Pending) ∧
     (ch_phase c = Executing → ∀ o,
        let s' := step k (Settle i o) s in
        handles s' = <[ch_handle c := Settled o]> (handles s) ∧
        handles s' !! ch_handle c = Some (Settled o) ∧
        (∀ tr', handles (exec k tr' s') !! ch_handle c = Some (Settled o)) ∧
        (∀ o', let s'' := step k (Settle i o') s in
           queue s'' = queue s' ∧ promises s'' = promises s' ∧
           running s'' = running s' ∧ chains s'' = chains s' ∧
           triggers s'' = triggers s' ∧ thrown s'' = thrown s'))).
Proof.
  intros Hnd s.
  pose proof (di_reachable k tr Hnd) as Hdi. fold s in Hdi.
  pose proof (wf_reachable k tr) as Hwf. fold s in Hwf.
  split_and!.
  - by destruct Hdi.
  - intros Hk.
    assert (Hw : wakeup s) by (by apply wakeup_reachable).
    split; [done|]. intros res. by apply (drain k res (work s) Hk s).
  - intros a t Hin. split; [by eapply di_binding|by eapply di_waiting].
  - intros i c Hi.
    assert (Hc : c ∈ chains s) by (by eapply list_elem_of_lookup_2).
    split_and!.
    + by eapply di_own.
    + intros Hun. by eapply di_unsettled.
    + intros Hph o s'.
      assert (Hpend : handles s !! ch_handle c = Some Pending).
      { eapply di_unsettled; [done..|]. by right. }
      assert (Hs' : handles s' = settle_handle (ch_handle c) o (handles s)).
      { subst s'. cbn [step]. by rewrite Hi, Hph. }
      destruct (settle_handle_pending _ o _ Hpend) as [Heq Hlook].
      rewrite Hs'. split_and!; [done..| |].
      * intros tr'. apply settled_exec. by rewrite Hs'.
      * intros o'. apply settle_frame.
Qed.

Lemma handle_settles_with_task_outcome_witness :
  let s := exec 2 [Push 0; Push 1; Tick; Tick; Invoke 0; Invoke 1] init in
  let s' := step 2 (Settle 0 (Rejected 5)) s in
  handles s' = [Settled (Rejected 5); Pending] ∧
  (∀ tr', handles (exec 2 tr' s') !! 0 = Some (Settled (Rejected 5))).
Proof.
  intros s s'.
  assert (Hnd : no_repush 2 [Push 0; Push 1; Tick; Tick; Invoke 0; Invoke 1]
                  init = true) by (vm_compute; reflexivity).
  destruct (handle_settles_with_task_outcome 2 _ Hnd)
    as (_ & _ & _ & Hchain).
  destruct (Hchain 0 (Chain 0 0 0 Executing)) as (_ & _ & Hsettle).
  { vm_compute. reflexivity. }
  destruct (Hsettle eq_refl (Rejected 5)) as (Heq & _ & Hstay & _).
  split; [|exact Hstay].
  etrans; [exact Heq|]. vm_compute. reflexivity.
Defined.

(** Two runs with limit 1.  In the first a callable is pushed twice and
    runs once, with success: the promise returned by its first push is still
    pending when nothing is left to run, and the second occurrence made
    [run] throw.  In the second the callable is pushed again as soon as the
    promise of its first push is settled, by code that waited for that
    promise and so runs before [cleanup]: [cleanup] deletes the entry that
    the second push recorded, [run] throws, and the promise of the second
    push is still pending when nothing is left to run. *)
Lemma first_handle_of_repushed_task_pending :
  let s := exec 1 [Push 0; Push 0; Tick; Tick; Invoke 0;
                   Settle 0 (Fulfilled 7); Cleanup 0] init in
  let s' := exec 1 [Push 0; Tick; Invoke 0; Settle 0 (Fulfilled 7);
                    Push 0; Cleanup 0; Tick] init in
  (chains s = [Chain 0 0 1 Done] ∧
   handles s = [Pending; Settled (Fulfilled 7)] ∧
   queue s = [] ∧ triggers s = 0 ∧ thrown s = [0]) ∧
  (chains s' = [Chain 0 0 0 Done] ∧
   handles s' = [Settled (Fulfilled 7); Pending] ∧
   queue s' = [] ∧ triggers s' = 0 ∧ thrown s' = [0]).
Proof. vm_compute. by repeat split. Qed.

(** *** A callable pushed a second time *)










End QueueFacts.

(** ** Facts about the timeout wrapper *)

Module TimeoutFacts.
Import Timeout.

Ltac tproj :=
  cbn [overran kill underlying outer on_deadline on_result clearTimeout
       timeoutified step] in *.

(** Once the deadline has fired, the promise of the call does not change. *)
Lemma fired_step (w : wrapper) (ev : event) (c : call) :
  kill c = Fired → overran c = true →
  kill (step w ev c) = Fired ∧ overran (step w ev c) = true ∧
  outer (step w ev c) = outer c.
Proof.
  intros Hk Ho. destruct ev as [|o]; cbn [step].
  - by rewrite Hk.
  - destruct (underlying c); try done. unfold on_result. tproj.
    by rewrite Hk, Ho.
Qed.

Lemma fired_exec (w : wrapper) (tr : list event) (c : call) :
  kill c = Fired → overran c = true →
  kill (exec w tr c) = Fired ∧ outer (exec w tr c) = outer c.
Proof.
  revert c. induction tr as [|ev tr IH]; intros c Hk Ho; [done|].
  destruct (fired_step w ev c Hk Ho) as (Hk' & Ho' & Heq).
  destruct (IH (step w ev c) Hk' Ho') as [? Heq']. split; [done|].
  etrans; [exact Heq'|exact Heq].
Qed.

(** Once the result has been handled and the timer is not armed, no event
    has any effect. *)
Lemma finished_exec (w : wrapper) (tr : list event) (c : call) :
  kill c ≠ Armed → underlying c ≠ Waiting → exec w tr c = c.
Proof.
  intros Hk Hu. induction tr as [|ev tr IH] using rev_ind; [done|].
  unfold exec in *. rewrite foldl_snoc, IH.
  destruct ev as [|o]; cbn [step].
  - by destruct (kill c).
  - by destruct (underlying c).
Qed.

Lemma shape_step (w : wrapper) (thrown : option value) (ev : event) (c : call) :
  shape w thrown c → shape w thrown (step w ev c).
Proof.
  unfold shape. destruct thrown as [e|].
  - intros [Hu Ho]. destruct ev as [|o]; cbn [step].
    + destruct (kill c); try done. unfold on_deadline. tproj.
      rewrite Ho. by destruct (w_reject w).
    + by rewrite Hu.
  - intros [(Hk & Hov & Hu & Ho)|[(Hk & Hov & Ho)|(Hk & Hov & Hu & o' & Ho)]];
      destruct ev as [|o]; cbn [step]; rewrite ?Hk, ?Hu.
    + right; left. unfold on_deadline. tproj. rewrite Ho.
      by destruct (w_reject w).
    + right; right. unfold on_result. tproj. rewrite Hk, Hov, Ho.
      split_and!; [done..|]. by exists o.
    + right; left. done.
    + right; left. destruct (underlying c); try done.
      unfold on_result. tproj. by rewrite Hk, Hov.
    + right; right. split_and!; [done..|]. by exists o'.
    + right; right. split_and!; [done..|]. by exists o'.
Qed.

Lemma shape_exec (w : wrapper) (thrown : option value) (tr : list event) :
  shape w thrown (exec w tr (timeoutified w thrown)).
Proof.
  induction tr as [|ev tr IH] using rev_ind.
  - destruct thrown; cbn; [done|]. by left.
  - unfold exec in *. rewrite foldl_snoc. by apply shape_step.
Qed.

(** C4. When the promise of the wrapped function settles first, the timer is
    cleared and the promise of the call is settled with the same outcome:
    fulfilled with the value [v] when that promise is fulfilled with [v],
    rejected with the reason [e] when it is rejected with [e].  It stays so
    whatever comes later.  When the deadline fires first, the outcome that
    comes later changes nothing: the promise of the call, be it rejected
    or left pending, stays as the deadline left it along every run that
    follows. *)
Theorem outcome_forwarded_once_or_discarded (w : wrapper) (o : outcome value) :
  (let c1 := step w (Result o) (timeoutified w None) in
   let same :=
     match o with
     | Fulfilled v => Settled (Fulfilled v)
     | Rejected e => Settled (Rejected (Forwarded e))
     end in
   kill c1 = Cleared ∧ outer c1 = same ∧
   ∀ tr, kill (exec w tr c1) = Cleared ∧ outer (exec w tr c1) = same) ∧
  (let c1 := step w Deadline (timeoutified w None) in
   underlying c1 = Waiting ∧
   outer (step w (Result o) c1) = outer c1 ∧
   ∀ tr, outer (exec w tr c1) = outer c1).
Proof.
  split.
  - destruct o as [v|e]; cbn; (split_and!; [done..|]); intros tr;
      by rewrite finished_exec.
  - cbn. split_and!; [done..|]. intros tr. by apply fired_exec.
Qed.

Lemma outcome_forwarded_once_or_discarded_witness :
  let w := timeout "slowFn" (Some 50%Z) None in
  outer (exec w [Result (Rejected 3); Deadline; Result (Fulfilled 4)]
           (timeoutified w None)) = Settled (Rejected (Forwarded 3)) ∧
  outer (exec w [Result (Fulfilled 4); Deadline; Result (Rejected 3)]
           (timeoutified w None)) = Settled (Fulfilled 4) ∧
  outer (exec w [Deadline; Result (Fulfilled 4)] (timeoutified w None)) =
    outer (exec w [Deadline] (timeoutified w None)).
Proof.
  intros w.
  destruct (outcome_forwarded_once_or_discarded w (Rejected 3))
    as [(_ & _ & Hrejected) _].
  destruct (outcome_forwarded_once_or_discarded w (Fulfilled 4))
    as [(_ & _ & Hfulfilled) (_ & _ & Hlate)].
  split_and!.
  - exact (proj2 (Hrejected [Deadline; Result (Fulfilled 4)])).
  - exact (proj2 (Hfulfilled [Deadline; Result (Rejected 3)])).
  - exact (Hlate [Result (Fulfilled 4)]).
Defined.

Lemma error_properties (func_name : string) (time : Z) :
  Number_isSafeInteger time →
  ∃ err, TimeoutExpiredError func_name time = Some err ∧
    err !! "name" = Some "TimeoutExpiredError" ∧
    err !! "message" =
      Some ("Timeout-wrapped function " +:+
            (if decide (func_name = "") then "<anonymous>" else func_name) +:+
            " took longer than " +:+ pretty time +:+ "ms to resolve") ∧
    (∀ p, p ≠ "name" → p ≠ "message" → err !! p = None).
Proof.
  intros Hsafe. unfold TimeoutExpiredError, template_number.
  rewrite decide_True by done. eexists. split; [done|]. split_and!.
  - by rewrite lookup_insert_eq.
  - rewrite lookup_insert_ne by done. by rewrite lookup_singleton_eq.
  - intros p Hn Hm. rewrite lookup_insert_ne by done.
    by rewrite lookup_singleton_ne.
Qed.

(** C5, as amended.  When the deadline fires before the promise of the
    wrapped function settles and [rejectOnTimeout] is true, the call is
    rejected with a [TimeoutExpiredError].  For a timeout that is a safe
    integer, the constructors give the error two properties, [name] and
    [message], and no other; the message holds the name of the function, or
    [<anonymous>] for an empty name, and the timeout in decimal.  And the
    promise of a call is rejected with an error made by
    [new TimeoutExpiredError] only if [rejectOnTimeout] is true, the
    function did not throw, and the deadline has fired. *)
Theorem timeout_error_on_deadline (w : wrapper) :
  (w_reject w = true →
   outer (step w Deadline (timeoutified w None)) =
     Settled (Rejected (Raised (TimeoutExpiredError (w_name w) (w_ms w))))) ∧
  (Number_isSafeInteger (w_ms w) →
   ∃ err, TimeoutExpiredError (w_name w) (w_ms w) = Some err ∧
     err !! "name" = Some "TimeoutExpiredError" ∧
     err !! "message" =
       Some ("Timeout-wrapped function " +:+
             (if decide (w_name w = "") then "<anonymous>" else w_name w) +:+
             " took longer than " +:+ pretty (w_ms w) +:+ "ms to resolve") ∧
     (∀ p, p ≠ "name" → p ≠ "message" → err !! p = None)) ∧
  (∀ thrown tr err,
     let c := exec w tr (timeoutified w thrown) in
     outer c = Settled (Rejected (Raised err)) →
     w_reject w = true ∧ thrown = None ∧ kill c = Fired ∧
     err = TimeoutExpiredError (w_name w) (w_ms w)).
Proof.
  split_and!.
  - intros Hr. cbn. by rewrite Hr.
  - apply error_properties.
  - intros thrown tr err c Hc.
    pose proof (shape_exec w thrown tr) as Hs. fold c in Hs.
    unfold shape in Hs. destruct thrown as [e|].
    { destruct Hs as [_ Ho]. congruence. }
    destruct Hs as [(_ & _ & _ & Ho)|[(Hk & _ & Ho)|(_ & _ & _ & o & Ho)]].
    + congruence.
    + destruct (w_reject w); [|congruence].
      rewrite Hc in Ho. by injection Ho as ->.
    + rewrite Hc in Ho. by destruct o.
Qed.

Lemma timeout_error_on_deadline_witness :
  let w := timeout "slowFn" (Some 50%Z) None in
  outer (step w Deadline (timeoutified w None)) =
    Settled (Rejected (Raised (TimeoutExpiredError "slowFn" 50))) ∧
  (∃ err, TimeoutExpiredError "slowFn" 50 = Some err ∧
     err !! "name" = Some "TimeoutExpiredError" ∧
     err !! "message" =
       Some "Timeout-wrapped function slowFn took longer than 50ms to resolve" ∧
     (∀ p, p ≠ "name" → p ≠ "message" → err !! p = None)) ∧
  kill (exec w [Deadline; Result (Fulfilled 1)] (timeoutified w None)) = Fired.
Proof.
  intros w. destruct (timeout_error_on_deadline w) as (Hrej & Hprops & Honly).
  split_and!.
  - apply Hrej. reflexivity.
  - apply Hprops. unfold Number_isSafeInteger. cbn. lia.
  - apply (Honly None [Deadline; Result (Fulfilled 1)]
             (TimeoutExpiredError "slowFn" 50)).
    vm_compute. reflexivity.
Defined.

(** What the error of a timed-out call of [slowFn] with 50 ms holds, and
    what it does not: there is no property [functionName] or [timeoutMs]. *)
Lemma timeout_error_has_no_fields :
  ∃ err, TimeoutExpiredError "slowFn" 50 = Some err ∧
    err !! "message" =
      Some "Timeout-wrapped function slowFn took longer than 50ms to resolve" ∧
    err !! "functionName" = None ∧
    err !! "timeoutMs" = None.
Proof. eexists. vm_compute. by repeat split. Qed.

(** The timeouts whose printed form the model does not give: the first
    integer that is not safe, and the first that the source prints with an
    exponent. *)
Lemma unsafe_timeouts_not_modelled :
  TimeoutExpiredError "slowFn" (2 ^ 53) = None ∧
  TimeoutExpiredError "slowFn" (10 ^ 21) = None ∧
  ∃ err, TimeoutExpiredError "slowFn" (2 ^ 53 - 1) = Some err ∧
    err !! "message" =
      Some "Timeout-wrapped function slowFn took longer than 9007199254740991ms to resolve".
Proof. split_and!; [done..|]. eexists. vm_compute. by split. Qed.

(** C6. With [rejectOnTimeout] false, when the deadline fires before the
    promise of the wrapped function settles, the promise of the call is
    pending and stays pending along every run that follows, also when the
    wrapped function settles later. *)
Theorem unsettled_forever_without_reject (w : wrapper) :
  w_reject w = false →
  let c1 := step w Deadline (timeoutified w None) in
  underlying c1 = Waiting ∧ outer c1 = Pending ∧
  ∀ tr, outer (exec w tr c1) = Pending.
Proof.
  intros Hr c1.
  assert (Ho : outer c1 = Pending) by (subst c1; cbn; by rewrite Hr).
  split_and!; [done..|]. intros tr. rewrite <-Ho. by apply fired_exec.
Qed.

Lemma unsettled_forever_without_reject_witness :
  let w := timeout "slowFn" (Some 50%Z) (Some false) in
  outer (exec w [Deadline; Result (Fulfilled 1)] (timeoutified w None)) = Pending.
Proof.
  intros w.
  destruct (unsettled_forever_without_reject w eq_refl) as (_ & _ & Hstay).
  exact (Hstay [Result (Fulfilled 1)]).
Defined.

(** When the promise of the wrapped function settles, the timer is not
    armed afterwards; and every call whose function returned a promise and
    that has come to an end other than by the deadline has its timer
    cleared. *)
Lemma result_clears_timer (w : wrapper) (o : outcome value) (c : call) :
  underlying c = Waiting → kill (step w (Result o) c) ≠ Armed.
Proof. intros Hu. cbn [step]. rewrite Hu. cbn. by destruct (kill c). Qed.

Lemma exit_clears_timer (w : wrapper) (tr : list event) :
  let c := exec w tr (timeoutified w None) in
  exited c → kill c = Cleared.
Proof.
  intros c [Ho Hk]. pose proof (shape_exec w None tr) as Hs. fold c in Hs.
  destruct Hs as [(_ & _ & _ & Hp)|[(Hf & _)|(Hc & _)]]; done.
Qed.

(** C8.  The wrapped function throws instead of returning a promise: the
    call is rejected with what was thrown, the deadline has not fired, and
    the timer is still armed; it fires later. *)
Theorem timer_left_armed_when_function_throws :
  let w := timeout "f" (Some 50%Z) None in
  let c := timeoutified w (Some 7) in
  exited c ∧ outer c = Settled (Rejected (Forwarded 7)) ∧
  kill c = Armed ∧ kill (step w Deadline c) = Fired.
Proof. cbn. by repeat split. Qed.

End TimeoutFacts.

(** ** Facts about the asynchronous array methods *)

Module AsyncFacts.
Import Async.

Section callback.
Context {A : Type}.
Implicit Types (callback : A → nat → answer) (array : list A).

(** *** [array.map] *)

Lemma array_map_inr callback idx array l :
  array_map callback idx array = inr l ↔
  none_throws callback idx array ∧
  l = imap (λ i elt, callback elt (idx + i)) array.
Proof.
  revert idx l. induction array as [|x array IH]; intros idx l.
  - cbn. split.
    + intros [= <-]. split; [|done]. intros i elt e Hi. by rewrite lookup_nil in Hi.
    + by intros [_ ->].
  - cbn [array_map]. rewrite imap_cons, Nat.add_0_r. split.
    + intros Hmap.
      destruct (array_map callback (S idx) array) as [e|l'] eqn:Hrest.
      { by destruct (callback x idx). }
      destruct (IH (S idx) l') as [[Hnt ->] _]; [done|].
      assert (Hx : ∀ e, callback x idx ≠ Throws e).
      { intros e He. by rewrite He in Hmap. }
      split.
      * intros [|i] elt e Hi.
        -- injection Hi as <-. rewrite Nat.add_0_r. apply Hx.
        -- rewrite Nat.add_succ_r. by apply (Hnt i).
      * assert (l = callback x idx
                     :: imap (λ i elt, callback elt (S idx + i)) array) as ->.
        { destruct (callback x idx); by simplify_eq. }
        f_equal. apply imap_ext. intros i y _. cbn. by rewrite Nat.add_succ_r.
    + intros [Hnt ->].
      destruct (IH (S idx) (imap (λ i elt, callback elt (S idx + i)) array))
        as [_ ->].
      2: { split; [|done]. intros i elt e Hi.
           replace (S idx + i) with (idx + S i) by lia. by apply Hnt. }
      assert (Hx : ∀ e, callback x idx ≠ Throws e).
      { intros e. specialize (Hnt 0 x e eq_refl). by rewrite Nat.add_0_r in Hnt. }
      assert (Heq : imap ((λ i elt, callback elt (idx + i)) ∘ S) array
                    = imap (λ i elt, callback elt (S idx + i)) array).
      { apply imap_ext. intros i y _. cbn. by rewrite Nat.add_succ_r. }
      rewrite Heq. destruct (callback x idx) eqn:Hc; try done.
      by destruct (Hx e).
Qed.

Lemma array_map_inl callback idx array e :
  array_map callback idx array = inl e ↔
  ∃ i elt, array !! i = Some elt ∧ callback elt (idx + i) = Throws e ∧
    ∀ j y e', j < i → array !! j = Some y → callback y (idx + j) ≠ Throws e'.
Proof.
  revert idx. induction array as [|x array IH]; intros idx.
  - cbn. split; [done|]. intros (i & elt & Hi & _). by rewrite lookup_nil in Hi.
  - cbn [array_map]. split.
    + intros Hmap. destruct (callback x idx) as [e0| | |] eqn:Hc.
      { injection Hmap as ->. exists 0, x. rewrite Nat.add_0_r.
        split_and!; [done..|]. intros j y e' Hj. lia. }
      all: destruct (array_map callback (S idx) array) as [e1|l'] eqn:Hrest;
        [|done]; injection Hmap as ->;
        destruct (proj1 (IH (S idx)) Hrest) as (i & elt & Hi & He & Hmin);
        exists (S i), elt; rewrite Nat.add_succ_r;
        (split_and!; [done..|]); intros [|j] y e' Hj Hy;
        [injection Hy as <-; rewrite Nat.add_0_r, Hc; done|];
        rewrite Nat.add_succ_r; apply (Hmin j); [lia|done].
    + intros (i & elt & Hi & He & Hmin). destruct i as [|i].
      { injection Hi as <-. rewrite Nat.add_0_r in He. by rewrite He. }
      assert (Hrest : array_map callback (S idx) array = inl e).
      { apply IH. exists i, elt. rewrite Nat.add_succ_r in He.
        split_and!; [done..|]. intros j y e' Hj Hy.
        replace (S idx + j) with (idx + S j) by lia.
        apply (Hmin (S j)); [lia|done]. }
      assert (Hx : ∀ e', callback x idx ≠ Throws e').
      { intros e'. specialize (Hmin 0 x e' ltac:(lia) eq_refl).
        by rewrite Nat.add_0_r in Hmin. }
      rewrite Hrest. destruct (callback x idx) eqn:Hc; try done.
      by destruct (Hx e0).
Qed.

End callback.

(** *** [Promise.all] *)

Lemma first_rejection_None (l : list answer) :
  first_rejection l = None ↔ ∀ i t e, l !! i ≠ Some (Rejects t e).
Proof.
  induction l as [|a l IH]; cbn [first_rejection].
  - split; [|done]. intros _ i t e. by rewrite lookup_nil.
  - split.
    + intros Hnone [|i] t e; cbn.
      * intros [= ->]. by destruct (first_rejection l) as [[]|]; [case_decide|].
      * apply IH. destruct a; try done.
        by destruct (first_rejection l) as [[]|]; [case_decide|].
    + intros Hno. assert (Hl : first_rejection l = None).
      { apply IH. intros i. apply (Hno (S i)). }
      rewrite Hl. destruct a as [| |t e|]; try done.
      by destruct (Hno 0 t e).
Qed.

Lemma first_rejection_Some (l : list answer) (t : nat) (e : value) :
  first_rejection l = Some (t, e) →
  ∃ i, l !! i = Some (Rejects t e) ∧
    ∀ j t' e', l !! j = Some (Rejects t' e') → t < t' ∨ (t = t' ∧ i ≤ j).
Proof.
  revert t e. induction l as [|a l IH]; intros t e; cbn [first_rejection];
    [done|].
  destruct (first_rejection l) as [[t1 e1]|] eqn:Hl.
  - destruct (IH t1 e1 eq_refl) as (i & Hi & Hmin).
    assert (Hrest : Some (t1, e1) = Some (t, e) →
              ∃ i0, (a :: l) !! i0 = Some (Rejects t e) ∧
                ∀ j t' e', (a :: l) !! j = Some (Rejects t' e') →
                  a ≠ Rejects t' e' ∨ j ≠ 0 → t < t' ∨ t = t' ∧ i0 ≤ j).
    { intros [= <- <-]. exists (S i). split; [done|].
      intros [|j] t' e' Hj Hnot; cbn in Hj.
      - destruct Hnot as [Hnot|Hnot]; [|done]. by simplify_eq.
      - destruct (Hmin j t' e' Hj) as [?|[? ?]]; [by left|right]. lia. }
    destruct a as [e0|t0 b0|t0 e0|].
    + intros Heq. destruct (Hrest Heq) as (i0 & Hi0 & Hm). exists i0.
      split; [done|]. intros j t' e' Hj. apply (Hm j t' e' Hj). by left.
    + intros Heq. destruct (Hrest Heq) as (i0 & Hi0 & Hm). exists i0.
      split; [done|]. intros j t' e' Hj. apply (Hm j t' e' Hj). by left.
    + case_decide as Hle.
      * intros [= <- <-]. exists 0. split; [done|].
        intros [|j] t' e' Hj; cbn in Hj.
        -- injection Hj as <- <-. right. lia.
        -- destruct (Hmin j t' e' Hj) as [?|[? ?]]; [left; lia|].
           destruct (decide (t0 = t')); [right; lia|left; lia].
      * intros Heq. destruct (Hrest Heq) as (i0 & Hi0 & Hm). exists i0.
        split; [done|]. intros [|j] t' e' Hj.
        -- cbn in Hj. injection Hj as <- <-. injection Heq as <- <-. left. lia.
        -- apply (Hm (S j) t' e' Hj). by right.
    + intros Heq. destruct (Hrest Heq) as (i0 & Hi0 & Hm). exists i0.
      split; [done|]. intros j t' e' Hj. apply (Hm j t' e' Hj). by left.
  - destruct a as [e0|t0 b0|t0 e0|]; try done.
    intros [= <- <-]. exists 0. split; [done|].
    intros [|j] t' e' Hj; cbn in Hj.
    + injection Hj as <- <-. right. lia.
    + by apply (proj1 (first_rejection_None l) Hl) in Hj.
Qed.

Lemma first_rejection_least (l : list answer) (i t : nat) (e : value) :
  l !! i = Some (Rejects t e) →
  (∀ j t' e', l !! j = Some (Rejects t' e') → t < t' ∨ (t = t' ∧ i ≤ j)) →
  first_rejection l = Some (t, e).
Proof.
  intros Hi Hmin. destruct (first_rejection l) as [[t1 e1]|] eqn:Hl.
  - destruct (first_rejection_Some l t1 e1 Hl) as (i1 & Hi1 & Hmin1).
    destruct (Hmin i1 t1 e1 Hi1) as [?|[? ?]];
      destruct (Hmin1 i t e Hi) as [?|[? ?]]; try lia.
    assert (i = i1) as -> by lia. by simplify_eq.
  - by apply (proj1 (first_rejection_None l) Hl) in Hi.
Qed.

(** *** The two functions *)

Section results.
Context {A : Type}.
Implicit Types (callback : A → nat → answer) (array : list A).

Lemma fulfilled_Some (a : answer) (b : bool) :
  fulfilled a = Some b ↔ ∃ t, a = Fulfils t b.
Proof.
  destruct a; cbn; split; try done; try (by intros [? [=]]).
  - intros [= ->]. by eexists.
  - by intros [t [= _ ->]].
Qed.

Lemma await_truth_Returns callback array truth :
  await_truth callback array = Returns truth ↔
  length truth = length array ∧
  ∀ i elt, array !! i = Some elt →
    ∃ t b, callback elt i = Fulfils t b ∧ truth !! i = Some b.
Proof.
  unfold await_truth, Promise_all. split.
  - destruct (array_map callback 0 array) as [e|l] eqn:Hmap; [done|].
    apply array_map_inr in Hmap as [_ ->].
    destruct (first_rejection _) as [[]|]; [done|].
    destruct (mapM fulfilled _) as [truth'|] eqn:HM; [|done].
    intros [= ->]. apply mapM_Some in HM.
    split.
    { apply Forall2_length in HM. by rewrite length_imap in HM. }
    intros i elt Hi.
    destruct (Forall2_lookup_l _ _ _ i (callback elt i) HM)
      as (b & Hb & [t Ht]%fulfilled_Some).
    { by rewrite list_lookup_imap, Hi. }
    by exists t, b.
  - intros [Hlen Hall].
    assert (Hmap : array_map callback 0 array
                   = inr (imap (λ i elt, callback elt (0 + i)) array)).
    { apply array_map_inr. split; [|done]. intros i elt e Hi He.
      destruct (Hall i elt Hi) as (t & b & Hc & _). cbn in He. congruence. }
    rewrite Hmap. cbn.
    assert (Hno : first_rejection (imap (λ i elt, callback elt i) array) = None).
    { apply first_rejection_None. intros i t e.
      rewrite list_lookup_imap. destruct (array !! i) as [elt|] eqn:Hi; [|done].
      destruct (Hall i elt Hi) as (t' & b & Hc & _). cbn. congruence. }
    rewrite Hno.
    assert (HM : mapM fulfilled (imap (λ i elt, callback elt i) array)
                 = Some truth).
    { apply mapM_Some. apply Forall2_same_length_lookup.
      split; [by rewrite length_imap|].
      intros i a b. rewrite list_lookup_imap.
      destruct (array !! i) as [elt|] eqn:Hi; [|done]. cbn. intros [= <-] Hb.
      destruct (Hall i elt Hi) as (t' & b' & Hc & Hb').
      apply fulfilled_Some. exists t'. congruence. }
    by rewrite HM.
Qed.

Lemma await_truth_all_fulfil callback array :
  all_fulfil callback 0 array ↔
  ∃ truth, await_truth callback array = Returns truth.
Proof.
  split.
  - intros Hall.
    assert (Hpick : ∀ i elt, array !! i = Some elt →
              ∃ b, fulfilled (callback elt i) = Some b).
    { intros i elt Hi. destruct (Hall i elt Hi) as (t & b & Hc).
      exists b. apply fulfilled_Some. by exists t. }
    assert (HM : is_Some (mapM fulfilled (imap (λ i elt, callback elt i) array))).
    { apply mapM_is_Some, Forall_forall. intros a [i Ha]%list_elem_of_lookup.
      rewrite list_lookup_imap in Ha.
      destruct (array !! i) as [elt|] eqn:Hi; [|done]. injection Ha as <-.
      destruct (Hpick i elt Hi) as [b Hb]. cbn. by rewrite Hb. }
    destruct HM as [truth HM]. exists truth. apply await_truth_Returns.
    apply mapM_Some in HM. split.
    { apply Forall2_length in HM. by rewrite length_imap in HM. }
    intros i elt Hi.
    destruct (Forall2_lookup_l _ _ _ i (callback elt i) HM)
      as (b & Hb & [t Ht]%fulfilled_Some).
    { by rewrite list_lookup_imap, Hi. }
    by exists t, b.
  - intros [truth [_ Hall]%await_truth_Returns] i elt Hi.
    destruct (Hall i elt Hi) as (t & b & Hc & _). by exists t, b.
Qed.

Lemma array_every_ext (f g : A → nat → bool) idx array :
  (∀ i elt, array !! i = Some elt → f elt (idx + i) = g elt (idx + i)) →
  array_every f idx array = array_every g idx array.
Proof.
  revert idx. induction array as [|x array IH]; intros idx Hfg; [done|].
  cbn. rewrite (IH (S idx)).
  - specialize (Hfg 0 x eq_refl). rewrite Nat.add_0_r in Hfg. by rewrite Hfg.
  - intros i elt Hi. specialize (Hfg (S i) elt Hi).
    by rewrite Nat.add_succ_r in Hfg.
Qed.

Lemma array_filter_ext (f g : A → nat → bool) idx array :
  (∀ i elt, array !! i = Some elt → f elt (idx + i) = g elt (idx + i)) →
  array_filter f idx array = array_filter g idx array.
Proof.
  revert idx. induction array as [|x array IH]; intros idx Hfg; [done|].
  cbn. rewrite (IH (S idx)).
  - specialize (Hfg 0 x eq_refl). rewrite Nat.add_0_r in Hfg. by rewrite Hfg.
  - intros i elt Hi. specialize (Hfg (S i) elt Hi).
    by rewrite Nat.add_succ_r in Hfg.
Qed.

Lemma array_filter_sublist (f : A → nat → bool) idx array :
  array_filter f idx array `sublist_of` array.
Proof.
  revert idx. induction array as [|x array IH]; intros idx; [done|].
  cbn. destruct (f x idx); [by apply sublist_skip|by apply sublist_cons].
Qed.

Lemma array_filter_all (f : A → nat → bool) idx array :
  array_filter f idx array = array ↔ array_every f idx array = true.
Proof.
  revert idx. induction array as [|x array IH]; intros idx; [done|].
  cbn. destruct (f x idx); cbn.
  - rewrite <-IH. split; [by intros [= ?]|by intros ->].
  - split; [|done]. intros Heq.
    pose proof (sublist_length _ _ (array_filter_sublist f (S idx) array)) as Hle.
    rewrite Heq in Hle. cbn in Hle. lia.
Qed.

Lemma truth_passes callback array truth :
  await_truth callback array = Returns truth →
  ∀ i elt, array !! i = Some elt →
    truth_at truth (0 + i) = passes callback elt (0 + i).
Proof.
  intros [_ Hall]%await_truth_Returns i elt Hi.
  destruct (Hall i elt Hi) as (t & b & Hc & Hb). cbn.
  unfold truth_at, passes. rewrite Hb, Hc. by destruct b.
Qed.

(** X1. [asyncEvery] is fulfilled exactly when the callback fulfils on
    every element of the array, and then with [true] exactly when every
    value is truthy.  A falsy value on one element does not make it answer
    [false] if the callback does not fulfil on another: the callback is
    called on all the elements, whatever it answers. *)
Theorem asyncEvery_returns callback array (b : bool) :
  asyncEvery callback array = Returns b ↔
  all_fulfil callback 0 array ∧ b = array_every (passes callback) 0 array.
Proof.
  unfold asyncEvery. split.
  - destruct (await_truth callback array) as [truth| |] eqn:Hw; try done.
    intros [= <-]. split.
    + apply await_truth_all_fulfil. by exists truth.
    + apply array_every_ext. intros i elt Hi.
      by apply (truth_passes callback array truth).
  - intros [[truth Hw]%await_truth_all_fulfil ->]. rewrite Hw. f_equal.
    apply array_every_ext. intros i elt Hi.
    by apply (truth_passes callback array truth).
Qed.

(** X2. [asyncFilter] is fulfilled exactly when the callback fulfils on
    every element of the array, and then with the elements on which the
    value is truthy, in the order of the array: a sublist of the array. *)
Theorem asyncFilter_returns callback array (l : list A) :
  asyncFilter callback array = Returns l ↔
  all_fulfil callback 0 array ∧ l = array_filter (passes callback) 0 array ∧
  l `sublist_of` array.
Proof.
  unfold asyncFilter. split.
  - destruct (await_truth callback array) as [truth| |] eqn:Hw; try done.
    intros [= <-]. split_and!.
    + apply await_truth_all_fulfil. by exists truth.
    + apply array_filter_ext. intros i elt Hi.
      by apply (truth_passes callback array truth).
    + apply array_filter_sublist.
  - intros ([truth Hw]%await_truth_all_fulfil & -> & _). rewrite Hw. f_equal.
    apply array_filter_ext. intros i elt Hi.
    by apply (truth_passes callback array truth).
Qed.

(** X3. On the same array and callback the two functions end alike: one
    is rejected with a reason exactly when the other is, one never settles
    exactly when the other does not, and [asyncEvery] answers [true]
    exactly when [asyncFilter] answers the whole array. *)
Theorem every_and_filter_agree callback array :
  (∀ e, asyncEvery callback array = Fails e ↔
        asyncFilter callback array = Fails e) ∧
  (asyncEvery callback array = Never ↔ asyncFilter callback array = Never) ∧
  (asyncEvery callback array = Returns true ↔
   asyncFilter callback array = Returns array).
Proof.
  unfold asyncEvery, asyncFilter.
  destruct (await_truth callback array) as [truth|e0|].
  - refine (conj _ (conj _ _)); [done|done|]. split.
    + intros [= Hev]. f_equal. by apply array_filter_all.
    + intros [= Hfi]. f_equal. by apply array_filter_all.
  - refine (conj _ (conj _ _)); [|done|done].
    intros e'. by split; intros [= ->].
  - refine (conj _ (conj _ _)); done.
Qed.

(** X4. The reason of a rejection.  Both functions are rejected with [e]
    exactly in two cases: the callback throws [e] on an element and throws
    on none before it (then the callback is not called on the later
    elements, and what the earlier results do is of no account); or no call
    throws and [e] is the reason of the rejection that comes first, the
    lower index deciding between two of the same instant. *)
Theorem rejection_reason callback array (e : value) :
  asyncEvery callback array = Fails e ↔
  (∃ i elt, array !! i = Some elt ∧ callback elt i = Throws e ∧
     ∀ j y e', j < i → array !! j = Some y → callback y j ≠ Throws e') ∨
  (none_throws callback 0 array ∧
   ∃ i elt t, array !! i = Some elt ∧ callback elt i = Rejects t e ∧
     ∀ j y t' e', array !! j = Some y → callback y j = Rejects t' e' →
       t < t' ∨ (t = t' ∧ i ≤ j)).
Proof.
  unfold asyncEvery, await_truth. split.
  - destruct (array_map callback 0 array) as [e0|l] eqn:Hmap.
    + intros [= ->]. left. by apply array_map_inl in Hmap.
    + apply array_map_inr in Hmap as [Hnt ->]. unfold Promise_all.
      destruct (first_rejection _) as [[t e1]|] eqn:Hfr.
      2: { by destruct (mapM fulfilled _). }
      intros [= ->]. right. split; [done|].
      destruct (first_rejection_Some _ _ _ Hfr) as (i & Hi & Hmin).
      rewrite list_lookup_imap in Hi.
      destruct (array !! i) as [elt|] eqn:Hai; [|done]. injection Hi as Hi.
      exists i, elt, t. split_and!; [done..|].
      intros j y t' e' Hj Hy. apply (Hmin j t' e').
      by rewrite list_lookup_imap, Hj; cbn; rewrite Hy.
  - intros [Hthrow|(Hnt & i & elt & t & Hi & Hc & Hmin)].
    + apply (array_map_inl callback 0 array e) in Hthrow. by rewrite Hthrow.
    + assert (Hmap : array_map callback 0 array
                     = inr (imap (λ i elt, callback elt (0 + i)) array))
        by (by apply array_map_inr).
      rewrite Hmap. unfold Promise_all.
      rewrite (first_rejection_least _ i t e); [done|..].
      * by rewrite list_lookup_imap, Hi; cbn; rewrite Hc.
      * intros j t' e'. rewrite list_lookup_imap.
        destruct (array !! j) as [y|] eqn:Hj; [|done]. cbn. intros [= Hy].
        by apply (Hmin j y t' e').
Qed.

(** X5. Both functions never settle exactly when no call of the callback
    throws, no result is rejected, and some result never settles. *)
Theorem never_settles callback array :
  asyncEvery callback array = Never ↔
  none_throws callback 0 array ∧
  (∀ i elt t e, array !! i = Some elt → callback elt i ≠ Rejects t e) ∧
  (∃ i elt, array !! i = Some elt ∧ callback elt i = Hangs).
Proof.
  unfold asyncEvery, await_truth. split.
  - destruct (array_map callback 0 array) as [e0|l] eqn:Hmap; [done|].
    apply array_map_inr in Hmap as [Hnt ->]. unfold Promise_all.
    destruct (first_rejection _) as [[t e1]|] eqn:Hfr; [done|].
    destruct (mapM fulfilled _) as [truth|] eqn:HM; [done|]. intros _.
    pose proof (proj1 (first_rejection_None _) Hfr) as Hno.
    split_and!; [done| |].
    + intros i elt t e Hi Hc. apply (Hno i t e).
      by rewrite list_lookup_imap, Hi; cbn; rewrite Hc.
    + assert (Hex : ¬ Forall (is_Some ∘ fulfilled)
                      (imap (λ i elt, callback elt (0 + i)) array)).
      { intros HF%mapM_is_Some. rewrite HM in HF. by destruct HF. }
      apply not_Forall_Exists in Hex; [|intros a; apply _].
      apply Exists_exists in Hex as (a & [i Ha]%list_elem_of_lookup & Hnot).
      rewrite list_lookup_imap in Ha.
      destruct (array !! i) as [elt|] eqn:Hi; [|done]. injection Ha as Ha.
      cbn in Ha. exists i, elt. split; [done|].
      destruct (callback elt i) as [e|t b|t e|] eqn:Hc; [| | |done].
      * by destruct (Hnt i elt e Hi).
      * subst a. destruct Hnot. by eexists.
      * destruct (Hno i t e). by rewrite list_lookup_imap, Hi; cbn; rewrite Hc.
  - intros (Hnt & Hnr & i & elt & Hi & Hc).
    assert (Hmap : array_map callback 0 array
                   = inr (imap (λ i elt, callback elt (0 + i)) array))
      by (by apply array_map_inr).
    rewrite Hmap. unfold Promise_all.
    assert (Hfr : first_rejection (imap (λ i elt, callback elt (0 + i)) array)
                  = None).
    { apply first_rejection_None. intros j t e. rewrite list_lookup_imap.
      destruct (array !! j) as [y|] eqn:Hj; [|done]. cbn. intros [= Hy].
      by destruct (Hnr j y t e Hj). }
    rewrite Hfr.
    destruct (mapM fulfilled _) as [truth|] eqn:HM; [|done].
    apply mapM_Some in HM.
    destruct (Forall2_lookup_l _ _ _ i (callback elt i) HM) as (b & _ & Hb).
    { by rewrite list_lookup_imap, Hi. }
    by rewrite Hc in Hb.
Qed.

End results.

Lemma asyncEvery_returns_witness :
  asyncEvery (λ elt _, Fulfils elt (Nat.even elt)) [2; 3; 4] = Returns false.
Proof.
  apply (asyncEvery_returns (λ elt _, Fulfils elt (Nat.even elt)) [2; 3; 4]).
  split; [|reflexivity].
  intros i elt _. by exists elt, (Nat.even elt).
Defined.

Lemma asyncFilter_returns_witness :
  asyncFilter (λ elt _, Fulfils elt (Nat.even elt)) [2; 3; 4] = Returns [2; 4].
Proof.
  apply (asyncFilter_returns (λ elt _, Fulfils elt (Nat.even elt)) [2; 3; 4]).
  split_and!; [|reflexivity|].
  - intros i elt _. by exists elt, (Nat.even elt).
  - by apply sublist_skip, sublist_cons, sublist_skip.
Defined.

Lemma rejection_reason_witness :
  asyncEvery (λ elt idx, match idx with
                         | 0 => Hangs
                         | 1 => Rejects 5 elt
                         | 2 => Rejects 3 elt
                         | _ => Rejects 3 0
                         end) [10; 11; 12; 13] = Fails 12.
Proof.
  apply rejection_reason. right. split.
  - by intros [|[|[|[|i]]]] elt e.
  - exists 2, 12, 3. split_and!; [done..|].
    intros [|[|[|[|j]]]] y t' e'; cbn; intros [= <-] [= <- <-]; lia.
Defined.

Lemma never_settles_witness :
  asyncEvery (λ elt idx, match idx with
                         | 1 => Hangs
                         | _ => Fulfils elt false
                         end) [10; 11; 12] = Never.
Proof.
  apply never_settles. split_and!.
  - by intros [|[|[|i]]] elt e.
  - by intros [|[|[|i]]] elt t e.
  - by exists 1, 11.
Defined.

End AsyncFacts.

(** ** Facts about the iterator transform methods *)

Module IteratorFacts.
Import Iterator.

Implicit Types (h k : list generator) (c inner : cursor) (iterator : iterable)
  (l : list jsval) (b : body) (cell : generator).

(** *** Bounds *)

Lemma iterable_below_le n m iterator :
  n ≤ m → iterable_below n iterator → iterable_below m iterator.
Proof. induction iterator; cbn; auto with lia. Qed.

Lemma cursor_below_le n m c :
  n ≤ m → cursor_below n c → cursor_below m c.
Proof. induction c; cbn; eauto using iterable_below_le with lia. Qed.

Lemma Symbol_iterator_below n iterator :
  iterable_below n iterator → cursor_below n (Symbol_iterator iterator).
Proof. by destruct iterator. Qed.

Lemma wf_nil : wf [].
Proof. by intros [|g] cell Hg. Qed.

Lemma wf_insert h g cell :
  wf h → generator_below g cell → wf (<[g := cell]> h).
Proof.
  intros Hwf Hcell g' cell' Hg'.
  destruct (decide (g = g')) as [<-|Hne].
  - destruct (decide (g < length h)) as [Hlt|Hge].
    + rewrite list_lookup_insert_eq in Hg' by done. by injection Hg' as <-.
    + rewrite list_insert_ge in Hg' by lia. by apply Hwf.
  - rewrite list_lookup_insert_ne in Hg' by done. by apply Hwf.
Qed.

Lemma wf_app h cell :
  wf h → generator_below (length h) cell → wf (h ++ [cell]).
Proof.
  intros Hwf Hcell g cell' Hg.
  destruct (decide (g < length h)) as [Hlt|Hge].
  - rewrite lookup_app_l in Hg by done. by apply Hwf.
  - rewrite lookup_app_r in Hg by lia.
    destruct (g - length h) as [|d] eqn:Hd; [|by destruct d].
    injection Hg as <-. by replace g with (length h) by lia.
Qed.

(** *** One call of [next] *)

Lemma next_length fuel c h r c' h' :
  next fuel c h = Some (r, c', h') → length h' = length h.
Proof.
  revert c h r c' h'. induction fuel as [|fuel IH]; intros c h r c' h'; [done|].
  cbn [next]. destruct c as [[|v rest]|g|it|inner|].
  - by intros [= _ _ <-].
  - by intros [= _ _ <-].
  - destruct (h !! g) as [[b it|b inner idx| |[|v rest]]|] eqn:Hg.
    + intros Hn%IH. by rewrite length_insert in Hn.
    + destruct (next fuel inner h) as [[[[v|] inner'] h1]|] eqn:Hi; [| |done].
      * apply IH in Hi. destruct b as [mapFn|filterFn].
        { intros [= _ _ <-]. by rewrite length_insert. }
        destruct (filterFn v idx).
        { intros [= _ _ <-]. by rewrite length_insert. }
        intros Hn%IH. rewrite length_insert in Hn. lia.
      * apply IH in Hi. intros [= _ _ <-]. by rewrite length_insert.
    + by intros [= _ _ <-].
    + by intros [= _ _ <-].
    + intros [= _ _ <-]. by rewrite length_insert.
    + by intros [= _ _ <-].
  - by intros Hn%IH.
  - destruct (next fuel inner h) as [[[[v|] inner'] h1]|] eqn:Hi; [| |done].
    + apply IH in Hi. by intros [= _ _ <-].
    + apply IH in Hi. by intros [= _ _ <-].
  - by intros [= _ _ <-].
Qed.

Lemma next_wf fuel n c h r c' h' :
  wf h → cursor_below n c → next fuel c h = Some (r, c', h') →
  wf h' ∧ cursor_below n c'.
Proof.
  revert n c h r c' h'.
  induction fuel as [|fuel IH]; intros n c h r c' h' Hwf Hc; [done|].
  cbn [next]. destruct c as [[|v rest]|g|it|inner|].
  - by intros [= _ <- <-].
  - by intros [= _ <- <-].
  - destruct (h !! g) as [[b it|b inner idx| |[|v rest]]|] eqn:Hg.
    + apply IH; [|done]. apply wf_insert; [done|].
      apply Symbol_iterator_below. by apply (Hwf g _ Hg).
    + pose proof (Hwf g _ Hg) as Hin. cbn in Hin.
      destruct (next fuel inner h) as [[[[v|] inner'] h1]|] eqn:Hi; [| |done].
      * destruct (IH g _ _ _ _ _ Hwf Hin Hi) as [Hwf1 Hin'].
        assert (wf (<[g := SuspendedYield b inner' (S idx)]> h1))
          by (by apply wf_insert).
        destruct b as [mapFn|filterFn]; [by intros [= _ <- <-]|].
        destruct (filterFn v idx); [by intros [= _ <- <-]|].
        by apply IH.
      * destruct (IH g _ _ _ _ _ Hwf Hin Hi) as [Hwf1 Hin'].
        intros [= _ <- <-]. split; [|done]. by apply wf_insert.
    + by intros [= _ <- <-].
    + by intros [= _ <- <-].
    + intros [= _ <- <-]. split; [|done]. by apply wf_insert.
    + by intros [= _ <- <-].
  - apply IH; [done|]. by apply Symbol_iterator_below.
  - cbn in Hc.
    destruct (next fuel inner h) as [[[[v|] inner'] h1]|] eqn:Hi; [| |done].
    + destruct (IH n _ _ _ _ _ Hwf Hc Hi). by intros [= _ <- <-].
    + destruct (IH n _ _ _ _ _ Hwf Hc Hi). by intros [= _ <- <-].
  - by intros [= _ <- <-].
Qed.

Lemma next_S fuel c h res :
  next fuel c h = Some res → next (S fuel) c h = Some res.
Proof.
  revert c h res. induction fuel as [|fuel IH]; intros c h res; [done|].
  intros Hn. cbn [next] in Hn. remember (S fuel) as n eqn:En in IH |- *.
  cbn [next].
  destruct c as [[|v rest]|g|it|inner|]; try done.
  - destruct (h !! g) as [[b it|b inner idx| |[|v rest]]|] eqn:Hg; try done.
    + by apply IH.
    + destruct (next fuel inner h) as [[[[v|] inner'] h1]|] eqn:Hi; [| |done].
      * rewrite (IH _ _ _ Hi). destruct b as [mapFn|filterFn]; [done|].
        cbn zeta in *. destruct (filterFn v idx); [done|]. by apply IH.
      * by rewrite (IH _ _ _ Hi).
  - by apply IH.
  - destruct (next fuel inner h) as [[[[v|] inner'] h1]|] eqn:Hi; [| |done].
    + by rewrite (IH _ _ _ Hi).
    + by rewrite (IH _ _ _ Hi).
Qed.

Lemma next_mono fuel fuel' c h res :
  fuel ≤ fuel' → next fuel c h = Some res → next fuel' c h = Some res.
Proof. induction 1; [done|]. intros. by apply next_S, IHle. Qed.

(** What [next] does to the generator objects older than [n] does not
    depend on the rest of the heap, and leaves the rest as it is.  Stated
    for a change [T] of the heap that keeps the older objects: putting
    something in the place of a younger one, or appending. *)
Section frame.
Variables (n : nat) (T : list generator → list generator).
Hypothesis T_lookup : ∀ h g, g < n → n ≤ length h → T h !! g = h !! g.
Hypothesis T_insert : ∀ h g cell,
  g < n → n ≤ length h → T (<[g := cell]> h) = <[g := cell]> (T h).

Lemma next_frame fuel m c h r c' h' :
  wf h → m ≤ n → n ≤ length h → cursor_below m c →
  next fuel c h = Some (r, c', h') →
  next fuel c (T h) = Some (r, c', T h').
Proof.
  revert m c h r c' h'.
  induction fuel as [|fuel IH]; intros m c h r c' h' Hwf Hm Hn Hc; [done|].
  cbn [next]. destruct c as [[|v rest]|g|it|inner|].
  - by intros [= <- <- <-].
  - by intros [= <- <- <-].
  - cbn in Hc. rewrite T_lookup by lia.
    destruct (h !! g) as [[b it|b inner idx| |[|v rest]]|] eqn:Hg.
    + intros Hnext. rewrite <-T_insert by lia.
      apply (IH m); [|done|by rewrite length_insert|done|done].
      apply wf_insert; [done|].
      apply Symbol_iterator_below. by apply (Hwf g _ Hg).
    + pose proof (Hwf g _ Hg) as Hin. cbn in Hin.
      destruct (next fuel inner h) as [[[[v|] inner'] h1]|] eqn:Hi; [| |done].
      * rewrite (IH g _ _ _ _ _ Hwf ltac:(lia) Hn Hin Hi).
        destruct (next_wf _ _ _ _ _ _ _ Hwf Hin Hi) as [Hwf1 Hin'].
        pose proof (next_length _ _ _ _ _ _ Hi) as Hlen.
        cbn zeta. rewrite <-T_insert by lia.
        destruct b as [mapFn|filterFn]; [by intros [= <- <- <-]|].
        destruct (filterFn v idx); [by intros [= <- <- <-]|].
        apply (IH m); [|done|rewrite length_insert; lia|done].
        by apply wf_insert.
      * rewrite (IH g _ _ _ _ _ Hwf ltac:(lia) Hn Hin Hi).
        pose proof (next_length _ _ _ _ _ _ Hi) as Hlen.
        intros [= <- <- <-]. by rewrite T_insert by lia.
    + by intros [= <- <- <-].
    + by intros [= <- <- <-].
    + intros [= <- <- <-]. by rewrite T_insert by lia.
    + by intros [= <- <- <-].
  - apply (IH m); [done..|]. by apply Symbol_iterator_below.
  - cbn in Hc.
    destruct (next fuel inner h) as [[[[v|] inner'] h1]|] eqn:Hi; [| |done].
    + rewrite (IH m _ _ _ _ _ Hwf Hm Hn Hc Hi). by intros [= <- <- <-].
    + rewrite (IH m _ _ _ _ _ Hwf Hm Hn Hc Hi). by intros [= <- <- <-].
  - by intros [= <- <- <-].
Qed.

End frame.

Lemma next_insert fuel g cell c h r c' h' :
  wf h → g < length h → cursor_below g c →
  next fuel c h = Some (r, c', h') →
  next fuel c (<[g := cell]> h) = Some (r, c', <[g := cell]> h').
Proof.
  intros Hwf Hg Hc.
  apply (next_frame g (λ h, <[g := cell]> h)) with (m := g); try done; [| |lia].
  - intros h0 u Hu _. apply list_lookup_insert_ne. lia.
  - intros h0 u cell' Hu _. apply list_insert_insert_ne. lia.
Qed.

Lemma next_app fuel ext c h r c' h' :
  wf h → cursor_below (length h) c →
  next fuel c h = Some (r, c', h') →
  next fuel c (h ++ ext) = Some (r, c', h' ++ ext).
Proof.
  intros Hwf Hc.
  apply (next_frame (length h) (λ h, h ++ ext)) with (m := length h); try done.
  - intros h0 u Hu Hlen. apply lookup_app_l. lia.
  - intros h0 u cell' Hu Hlen. symmetry. apply insert_app_l. lia.
Qed.

(** *** Pulling to the end *)

Lemma exhaust_S fuel c h res :
  exhaust fuel c h = Some res → exhaust (S fuel) c h = Some res.
Proof.
  revert c h res. induction fuel as [|fuel IH]; intros c h res; [done|].
  intros Hd. cbn [exhaust] in Hd. remember (S fuel) as n eqn:En in IH |- *.
  cbn [exhaust]. subst n.
  destruct (next fuel c h) as [[[[v|] c'] h1]|] eqn:Hn; [| |done].
  - rewrite (next_S _ _ _ _ Hn).
    destruct (exhaust fuel c' h1) as [[l h2]|] eqn:Hd'; [|done].
    by rewrite (IH _ _ _ Hd').
  - by rewrite (next_S _ _ _ _ Hn).
Qed.

Lemma exhaust_mono fuel fuel' c h res :
  fuel ≤ fuel' → exhaust fuel c h = Some res → exhaust fuel' c h = Some res.
Proof. induction 1; [done|]. intros. by apply exhaust_S, IHle. Qed.

Lemma drains_nil fuel c h c' h' :
  next fuel c h = Some (None, c', h') → drains c h [] h'.
Proof. intros Hn. exists (S fuel). cbn [exhaust]. by rewrite Hn. Qed.

Lemma drains_cons fuel c h v c' h1 l h' :
  next fuel c h = Some (Some v, c', h1) → drains c' h1 l h' →
  drains c h (v :: l) h'.
Proof.
  intros Hn [fuel2 Hd]. exists (S (fuel `max` fuel2)). cbn [exhaust].
  rewrite (next_mono fuel (fuel `max` fuel2) _ _ _ ltac:(lia) Hn).
  by rewrite (exhaust_mono fuel2 (fuel `max` fuel2) _ _ _ ltac:(lia) Hd).
Qed.

Lemma drains_inv c h l h' :
  drains c h l h' →
  match l with
  | [] => ∃ fuel c', next fuel c h = Some (None, c', h')
  | v :: l' =>
      ∃ fuel c' h1, next fuel c h = Some (Some v, c', h1) ∧ drains c' h1 l' h'
  end.
Proof.
  intros [[|fuel] Hd]; [done|]. cbn [exhaust] in Hd.
  destruct (next fuel c h) as [[[[v|] c'] h1]|] eqn:Hn; [| |done].
  - destruct (exhaust fuel c' h1) as [[l' h2]|] eqn:Hd'; [|done].
    injection Hd as <- <-. exists fuel, c', h1. split; [done|]. by exists fuel.
  - injection Hd as <- <-. by exists fuel, c'.
Qed.

Lemma drains_det c h l1 h1 l2 h2 :
  drains c h l1 h1 → drains c h l2 h2 → l1 = l2 ∧ h1 = h2.
Proof.
  intros [f1 H1] [f2 H2].
  apply (exhaust_mono f1 (f1 `max` f2)) in H1; [|lia].
  apply (exhaust_mono f2 (f1 `max` f2)) in H2; [|lia].
  rewrite H1 in H2. by injection H2.
Qed.

(** A cursor whose first call of [next] does in [h] what it does in [k],
    given fuel, pulls from [h] what it pulls from [k]. *)
Lemma drains_first c h k l h' :
  (∀ fuel res, next fuel c k = Some res → ∃ fuel', next fuel' c h = Some res) →
  drains c k l h' → drains c h l h'.
Proof.
  intros Hfirst Hd. apply drains_inv in Hd. destruct l as [|v l].
  - destruct Hd as (fuel & c' & Hn). destruct (Hfirst _ _ Hn) as [fuel' Hn'].
    by apply (drains_nil fuel' _ _ c').
  - destruct Hd as (fuel & c' & h1 & Hn & Hd).
    destruct (Hfirst _ _ Hn) as [fuel' Hn'].
    by apply (drains_cons fuel' _ _ _ c' h1).
Qed.

Lemma drains_wf n c h l h' :
  wf h → cursor_below n c → drains c h l h' → wf h' ∧ length h' = length h.
Proof.
  revert c h. induction l as [|v l IH]; intros c h Hwf Hc Hd;
    apply drains_inv in Hd.
  - destruct Hd as (fuel & c' & Hn).
    split; [by eapply next_wf|by eapply next_length].
  - destruct Hd as (fuel & c' & h1 & Hn & Hd).
    destruct (next_wf _ _ _ _ _ _ _ Hwf Hc Hn) as [Hwf1 Hc'].
    destruct (IH _ _ Hwf1 Hc' Hd) as [? Hlen]. split; [done|].
    rewrite Hlen. by eapply next_length.
Qed.

Lemma drains_insert g cell c h l h' :
  wf h → g < length h → cursor_below g c → drains c h l h' →
  drains c (<[g := cell]> h) l (<[g := cell]> h').
Proof.
  revert c h. induction l as [|v l IH]; intros c h Hwf Hg Hc Hd;
    apply drains_inv in Hd.
  - destruct Hd as (fuel & c' & Hn).
    apply (drains_nil fuel _ _ c'). by apply next_insert.
  - destruct Hd as (fuel & c' & h1 & Hn & Hd).
    destruct (next_wf _ _ _ _ _ _ _ Hwf Hc Hn) as [Hwf1 Hc'].
    apply (drains_cons fuel _ _ _ c' (<[g := cell]> h1)).
    + by apply next_insert.
    + apply IH; [done| |done..]. by rewrite (next_length _ _ _ _ _ _ Hn).
Qed.

Lemma drains_app ext c h l h' :
  wf h → cursor_below (length h) c → drains c h l h' →
  drains c (h ++ ext) l (h' ++ ext).
Proof.
  revert c h. induction l as [|v l IH]; intros c h Hwf Hc Hd;
    apply drains_inv in Hd.
  - destruct Hd as (fuel & c' & Hn).
    apply (drains_nil fuel _ _ c'). by apply next_app.
  - destruct Hd as (fuel & c' & h1 & Hn & Hd).
    destruct (next_wf _ _ _ _ _ _ _ Hwf Hc Hn) as [Hwf1 Hc'].
    apply (drains_cons fuel _ _ _ c' (h1 ++ ext)).
    + by apply next_app.
    + apply IH; [done| |done]. by rewrite (next_length _ _ _ _ _ _ Hn).
Qed.

Lemma drains_array rest h : drains (ArrayIterator rest) h rest h.
Proof.
  induction rest as [|v rest IH].
  - by apply (drains_nil 1 _ _ (ArrayIterator [])).
  - by apply (drains_cons 1 _ _ _ (ArrayIterator rest) h).
Qed.

Lemma drains_external g rest h :
  h !! g = Some (External rest) →
  drains (GeneratorObject g) h rest (<[g := External []]> h).
Proof.
  revert h. induction rest as [|v rest IH]; intros h Hg.
  - apply (drains_nil 1 _ _ (GeneratorObject g)). cbn. rewrite Hg.
    by rewrite list_insert_id.
  - apply (drains_cons 1 _ _ _ (GeneratorObject g) (<[g := External rest]> h)).
    + cbn. by rewrite Hg.
    + rewrite <-(list_insert_insert_eq h g (External []) (External rest)).
      apply IH. apply list_lookup_insert_eq. by eapply lookup_lt_Some.
Qed.

(** *** The generator of [wrap] *)

Lemma drains_delegate c h l h' :
  drains (DelegateYield c) h l h' ↔ drains c h l h'.
Proof.
  split.
  - revert c h. induction l as [|v l IH]; intros c h Hd; apply drains_inv in Hd.
    + destruct Hd as ([|fuel] & c' & Hn); [done|]. cbn [next] in Hn.
      destruct (next fuel c h) as [[[[v|] c1] h1]|] eqn:Hc; [done| |done].
      injection Hn as <- <-. by apply (drains_nil fuel _ _ c1).
    + destruct Hd as ([|fuel] & c' & h1 & Hn & Hd); [done|]. cbn [next] in Hn.
      destruct (next fuel c h) as [[[[v'|] c1] h2]|] eqn:Hc; [|done..].
      injection Hn as <- <- <-. apply (drains_cons fuel _ _ _ c1 h2); [done|].
      by apply IH.
  - revert c h. induction l as [|v l IH]; intros c h Hd; apply drains_inv in Hd.
    + destruct Hd as (fuel & c' & Hn).
      apply (drains_nil (S fuel) _ _ DelegateDone). cbn [next]. by rewrite Hn.
    + destruct Hd as (fuel & c' & h1 & Hn & Hd).
      apply (drains_cons (S fuel) _ _ _ (DelegateYield c') h1).
      * cbn [next]. by rewrite Hn.
      * by apply IH.
Qed.

Lemma drains_delegate_start iterator h l h' :
  drains (DelegateStart iterator) h l h' ↔
  drains (Symbol_iterator iterator) h l h'.
Proof.
  rewrite <-(drains_delegate (Symbol_iterator iterator)). split.
  - intros Hd.
    apply drains_inv in Hd. destruct l as [|v l].
    + destruct Hd as ([|fuel] & c' & Hn); [done|].
      by apply (drains_nil fuel _ _ c').
    + destruct Hd as ([|fuel] & c' & h1 & Hn & Hd); [done|].
      by apply (drains_cons fuel _ _ _ c' h1).
  - intros Hd. apply drains_inv in Hd. destruct l as [|v l].
    + destruct Hd as (fuel & c' & Hn). by apply (drains_nil (S fuel) _ _ c').
    + destruct Hd as (fuel & c' & h1 & Hn & Hd).
      by apply (drains_cons (S fuel) _ _ _ c' h1).
Qed.

(** *** The generators of [map] and [filter$1] *)

Lemma drains_start g b iterator h l h' :
  h !! g = Some (SuspendedStart b iterator) →
  drains (GeneratorObject g)
    (<[g := SuspendedYield b (Symbol_iterator iterator) 0]> h) l h' →
  drains (GeneratorObject g) h l h'.
Proof.
  intros Hg. apply drains_first. intros fuel res Hn. exists (S fuel).
  cbn [next]. by rewrite Hg.
Qed.

(** The loop of a body, from the cursor [inner] of its iterator and the
    index [idx]: it yields what the body makes of the values left in
    [inner], in step with the pulls from [inner], and ends completed. *)
Lemma drains_loop g b l : ∀ inner idx h h',
  wf h → h !! g = Some (SuspendedYield b inner idx) →
  drains inner h l h' →
  drains (GeneratorObject g) h (yields b idx l) (<[g := Completed]> h').
Proof.
  induction l as [|v l IH]; intros inner idx h h' Hwf Hg Hd;
    pose proof (Hwf g _ Hg) as Hin; cbn in Hin;
    pose proof (lookup_lt_Some _ _ _ Hg) as Hlt;
    apply drains_inv in Hd.
  - destruct Hd as (fuel & c' & Hn).
    apply (drains_nil (S fuel) _ _ (GeneratorObject g)).
    cbn [next]. by rewrite Hg, Hn.
  - destruct Hd as (fuel & inner' & h1 & Hn & Hd).
    destruct (next_wf _ _ _ _ _ _ _ Hwf Hin Hn) as [Hwf1 Hin'].
    pose proof (next_length _ _ _ _ _ _ Hn) as Hlen.
    set (h2 := <[g := SuspendedYield b inner' (S idx)]> h1).
    assert (Hrest : drains (GeneratorObject g) h2 (yields b (S idx) l)
                      (<[g := Completed]> h')).
    { rewrite <-(list_insert_insert_eq h' g Completed
                   (SuspendedYield b inner' (S idx))).
      apply (IH inner' (S idx)).
      - by apply wf_insert.
      - apply list_lookup_insert_eq. lia.
      - apply drains_insert; [done|lia|done..]. }
    assert (Hstep : ∀ r, match b with
                         | baseMap mapFn => r = Some (mapFn v idx)
                         | baseFilter filterFn =>
                             filterFn v idx = true ∧ r = Some v
                         end →
              next (S fuel) (GeneratorObject g) h
              = Some (r, GeneratorObject g, h2)).
    { intros r Hr. cbn [next]. rewrite Hg, Hn. cbn zeta. fold h2.
      destruct b as [mapFn|filterFn]; [by subst r|].
      destruct Hr as [-> ->]. done. }
    cbn [yields]. destruct b as [mapFn|filterFn].
    + by apply (drains_cons (S fuel) _ _ _ (GeneratorObject g) h2); [apply Hstep|].
    + destruct (filterFn v idx) eqn:Hpass.
      * by apply (drains_cons (S fuel) _ _ _ (GeneratorObject g) h2);
          [apply Hstep|].
      * revert Hrest. apply drains_first. intros fuel2 res Hn2.
        exists (S (fuel `max` fuel2)). cbn [next].
        rewrite Hg, (next_mono fuel (fuel `max` fuel2) _ _ _ ltac:(lia) Hn).
        cbn zeta.
        rewrite Hpass. fold h2. by apply (next_mono fuel2); [lia|].
Qed.

(** The generator object of a transform, from its making to its end. *)
Lemma drains_transform g b iterator h l h' :
  wf h → h !! g = Some (SuspendedStart b iterator) →
  drains (Symbol_iterator iterator) h l h' →
  drains (GeneratorObject g) h (yields b 0 l) (<[g := Completed]> h').
Proof.
  intros Hwf Hg Hd.
  pose proof (Hwf g _ Hg) as Hin. cbn in Hin.
  pose proof (lookup_lt_Some _ _ _ Hg) as Hlt.
  apply (drains_start g b iterator); [done|].
  rewrite <-(list_insert_insert_eq h' g Completed
               (SuspendedYield b (Symbol_iterator iterator) 0)).
  apply (drains_loop g b l (Symbol_iterator iterator) 0).
  - apply wf_insert; [done|]. by apply Symbol_iterator_below.
  - by apply list_lookup_insert_eq.
  - apply drains_insert; [done..| |done]. by apply Symbol_iterator_below.
Qed.

Lemma yields_map mapFn idx l :
  yields (baseMap mapFn) idx l = imap (λ i value, mapFn value (idx + i)) l.
Proof.
  revert idx. induction l as [|v l IH]; intros idx; [done|].
  cbn. rewrite Nat.add_0_r, IH. f_equal. apply imap_ext. intros i x _. cbn.
  f_equal. lia.
Qed.

Lemma yields_filter filterFn idx l :
  yields (baseFilter filterFn) idx l = Async.array_filter filterFn idx l.
Proof.
  revert idx. induction l as [|v l IH]; intros idx; [done|].
  cbn. by rewrite IH.
Qed.

Lemma next_generator fuel g h r c' h' :
  next fuel (GeneratorObject g) h = Some (r, c', h') →
  c' = GeneratorObject g ∧
  (r = None → next 1 (GeneratorObject g) h' = Some (None, GeneratorObject g, h')).
Proof.
  revert h r c' h'. induction fuel as [|fuel IH]; intros h r c' h'; [done|].
  cbn [next]. destruct (h !! g) as [[b it|b inner idx| |[|v rest]]|] eqn:Hg.
  - apply IH.
  - pose proof (lookup_lt_Some _ _ _ Hg) as Hlt.
    destruct (next fuel inner h) as [[[[v|] inner'] h1]|] eqn:Hi; [| |done].
    + cbn zeta. destruct b as [mapFn|filterFn]; [by intros [= <- <- <-]|].
      destruct (filterFn v idx); [by intros [= <- <- <-]|]. apply IH.
    + pose proof (next_length _ _ _ _ _ _ Hi) as Hlen.
      intros [= <- <- <-]. split; [done|]. intros _. cbn.
      by rewrite list_lookup_insert_eq by lia.
  - intros [= <- <- <-]. split; [done|]. intros _. cbn. by rewrite Hg.
  - intros [= <- <- <-]. split; [done|]. intros _. cbn. by rewrite Hg.
  - by intros [= <- <- <-].
  - intros [= <- <- <-]. split; [done|]. intros _. cbn. by rewrite Hg.
Qed.

Lemma drains_generator_spent g l : ∀ h h',
  drains (GeneratorObject g) h l h' →
  next 1 (GeneratorObject g) h' = Some (None, GeneratorObject g, h').
Proof.
  induction l as [|v l IH]; intros h h' Hd; apply drains_inv in Hd.
  - destruct Hd as (fuel & c' & Hn). by apply (next_generator _ _ _ _ _ _ Hn).
  - destruct Hd as (fuel & c' & h1 & Hn & Hd).
    destruct (next_generator _ _ _ _ _ _ Hn) as [-> _]. by apply (IH h1).
Qed.

(** Pulling from a cursor leaves the generator objects it does not refer
    to as they are. *)
Lemma drains_above g c h l h' :
  wf h → g < length h → cursor_below g c → drains c h l h' →
  h' !! g = h !! g.
Proof.
  intros Hwf Hg Hc Hd.
  destruct (lookup_lt_is_Some_2 h g Hg) as [cell Hcell].
  pose proof (drains_insert g cell _ _ _ _ Hwf Hg Hc Hd) as Hd'.
  rewrite (list_insert_id h g cell Hcell) in Hd'.
  destruct (drains_det _ _ _ _ _ _ Hd Hd') as [_ Heq].
  destruct (drains_wf g _ _ _ _ Hwf Hc Hd) as [_ Hlen].
  rewrite Heq, Hcell. apply list_lookup_insert_eq. lia.
Qed.

(** Every cursor over a heap that the functions build comes to an end. *)
Lemma drains_total n : ∀ c h,
  wf h → cursor_below n c → ∃ l h', drains c h l h'.
Proof.
  induction (lt_wf n) as [n _ IHn].
  assert (Hgen : ∀ g h, wf h → g < n →
            ∃ l h', drains (GeneratorObject g) h l h').
  { intros g h Hwf Hg.
    destruct (h !! g) as [[b it|b inner idx| |rest]|] eqn:Hcell.
    - pose proof (Hwf g _ Hcell) as Hin. cbn in Hin.
      destruct (IHn g Hg (Symbol_iterator it) h Hwf) as (l & h' & Hd);
        [by apply Symbol_iterator_below|].
      eexists _, _. by apply (drains_transform g b it h l h').
    - pose proof (Hwf g _ Hcell) as Hin. cbn in Hin.
      destruct (IHn g Hg inner h Hwf Hin) as (l & h' & Hd).
      eexists _, _. by apply (drains_loop g b l inner idx h h').
    - exists [], h. apply (drains_nil 1 _ _ (GeneratorObject g)).
      cbn. by rewrite Hcell.
    - eexists _, _. by apply drains_external.
    - exists [], h. apply (drains_nil 1 _ _ (GeneratorObject g)).
      cbn. by rewrite Hcell. }
  assert (Hit : ∀ it h, wf h → iterable_below n it →
            ∃ l h', drains (Symbol_iterator it) h l h').
  { intros it. induction it as [elements|g|it IH]; intros h Hwf Hb; cbn in *.
    - eexists _, _. apply drains_array.
    - by apply Hgen.
    - destruct (IH h Hwf Hb) as (l & h' & Hd). exists l, h'.
      by apply drains_delegate_start. }
  intros c. induction c as [rest|g|it|inner IH|]; intros h Hwf Hb; cbn in *.
  - eexists _, _. apply drains_array.
  - by apply Hgen.
  - destruct (Hit it h Hwf Hb) as (l & h' & Hd). exists l, h'.
    by apply drains_delegate_start.
  - destruct (IH h Hwf Hb) as (l & h' & Hd). exists l, h'.
    by apply drains_delegate.
  - exists [], h. by apply (drains_nil 1 _ _ DelegateDone).
Qed.

Lemma transform_wf b iterator h :
  wf h → iterable_below (length h) iterator →
  wf (h ++ [SuspendedStart b iterator]) ∧
  iterable_below (length (h ++ [SuspendedStart b iterator]))
    (wrap (Generator (length h))).
Proof.
  intros Hwf Hb. split; [by apply wf_app|]. cbn. rewrite length_app. cbn. lia.
Qed.

(** The iterable that [map] or [filter$1] returns, gone through from the
    heap in which it was made. *)
Lemma transform_collects b iterator h l h' :
  wf h → iterable_below (length h) iterator → collects iterator h l h' →
  collects (wrap (Generator (length h))) (h ++ [SuspendedStart b iterator])
    (yields b 0 l) (h' ++ [Completed]).
Proof.
  intros Hwf Hb Hd. unfold collects, wrap in *. cbn [Symbol_iterator].
  apply drains_delegate_start. cbn [Symbol_iterator].
  pose proof (Symbol_iterator_below _ _ Hb) as Hc.
  destruct (drains_wf _ _ _ _ _ Hwf Hc Hd) as [_ Hlen].
  replace (h' ++ [Completed])
    with (<[length h := Completed]> (h' ++ [SuspendedStart b iterator])).
  2: { rewrite insert_app_r_alt by lia. by rewrite Hlen, Nat.sub_diag. }
  apply (drains_transform (length h) b iterator).
  - by apply wf_app.
  - by apply list_lookup_middle.
  - by apply drains_app.
Qed.

(** *** The functions *)

(** X6. Wrapping changes nothing to what is gone through: the values an
    object made by [wrap] gives, and the generator objects it leaves
    behind, are those of the iterable it was made from. *)
Theorem wrap_collects iterator h l h' :
  collects (wrap iterator) h l h' ↔ collects iterator h l h'.
Proof. apply drains_delegate_start. Qed.

(** X7. [map]: if going through the iterator gives the values [l], going
    through the result gives [mapFn] of each value of [l] and its index,
    in order.  The heap is left as going through the iterator leaves it,
    with the generator object of [map] completed. *)
Theorem map_collects iterator mapFn h l h' :
  wf h → iterable_below (length h) iterator → collects iterator h l h' →
  collects (map iterator mapFn h).1 (map iterator mapFn h).2
    (imap (λ idx value, mapFn value idx) l) (h' ++ [Completed]).
Proof.
  intros Hwf Hb Hd. cbn [map fst snd].
  pose proof (transform_collects (baseMap mapFn) _ _ _ _ Hwf Hb Hd) as Ht.
  by rewrite yields_map in Ht.
Qed.

(** X8. [filter$1]: if going through the iterator gives the values [l],
    going through the result gives the values of [l] on which [filterFn]
    is truthy, in order, as [Array.prototype.filter] does on [l]: the index
    given to [filterFn] is the place of the value in [l], not among the
    values kept. *)
Theorem filter_collects iterator filterFn h l h' :
  wf h → iterable_below (length h) iterator → collects iterator h l h' →
  collects (filter_1 iterator filterFn h).1 (filter_1 iterator filterFn h).2
    (Async.array_filter filterFn 0 l) (h' ++ [Completed]).
Proof.
  intros Hwf Hb Hd. cbn [filter_1 fst snd].
  pose proof (transform_collects (baseFilter filterFn) _ _ _ _ Hwf Hb Hd) as Ht.
  by rewrite yields_filter in Ht.
Qed.

Lemma reduce_loop_exhaust reducer initialValue fuel : ∀ c h l h' idx accumulator,
  idx ≠ 0 ∨ initialValue ≠ undefined →
  exhaust fuel c h = Some (l, h') →
  reduce_loop fuel reducer initialValue c idx accumulator h
  = Some (foldl (λ acc '(i, value), reducer acc value i) accumulator
            (imap (λ i value, (idx + i, value)) l), h').
Proof.
  induction fuel as [|fuel IH]; intros c h l h' idx acc Hidx; [done|].
  cbn [exhaust reduce_loop].
  destruct (next fuel c h) as [[[[v|] c'] h1]|] eqn:Hn; [| |done].
  - destruct (exhaust fuel c' h1) as [[l' h2]|] eqn:Hd; [|done].
    intros [= <- <-]. rewrite bool_decide_false by (intros [? ?]; tauto).
    rewrite (IH _ _ _ _ (S idx) (reducer acc v idx) ltac:(lia) Hd).
    cbn. rewrite Nat.add_0_r. do 3 f_equal. apply imap_ext. intros i x _. cbn.
    f_equal. lia.
  - by intros [= <- <-].
Qed.

(** X9. [reduce]: if going through the iterator gives the values [l],
    [reduce] returns, and leaves the heap as going through leaves it.  With
    an initial value other than [undefined] the result is the fold of
    [reducer] over [l] from the initial value, the indices from 0.  With
    [undefined] (or nothing) for initial value, the first value of [l] is
    the start and the fold goes over the rest with the indices from 1; and
    when [l] is empty the result is [undefined]: nothing is thrown. *)
Theorem reduce_result iterator reducer initialValue h l h' :
  collects iterator h l h' →
  reduces iterator reducer initialValue h
    (if decide (initialValue = undefined) then
       match l with
       | [] => undefined
       | first :: rest =>
           foldl (λ acc '(idx, value), reducer acc value idx) first
             (imap (λ i value, (S i, value)) rest)
       end
     else
       foldl (λ acc '(idx, value), reducer acc value idx) initialValue
         (imap (λ i value, (i, value)) l))
    h'.
Proof.
  intros [fuel Hd]. exists fuel. unfold reduce.
  destruct (decide (initialValue = undefined)) as [->|Hinit].
  - destruct fuel as [|fuel]; [done|]. cbn [exhaust reduce_loop] in *.
    destruct (next fuel _ h) as [[[[v|] c'] h1]|] eqn:Hn; [| |done].
    + destruct (exhaust fuel c' h1) as [[l' h2]|] eqn:Hd'; [|done].
      injection Hd as <- <-. rewrite bool_decide_true by done.
      by rewrite (reduce_loop_exhaust _ _ _ _ _ _ _ (0 + 1) v ltac:(lia) Hd').
    + by injection Hd as <- <-.
  - by rewrite (reduce_loop_exhaust _ _ _ _ _ _ _ 0 initialValue
                  ltac:(by right) Hd).
Qed.

(** X10. An iterable that reads from a generator object can be gone
    through once: after it has been gone through to the end, going through
    it again gives nothing and changes nothing.  This holds for every
    result of [map] and [filter$1]. *)
Theorem second_pass_empty iterator h l h' :
  one_shot iterator = true → collects iterator h l h' →
  collects iterator h' [] h'.
Proof.
  unfold collects. revert h l h'.
  induction iterator as [elements|g|iterator IH]; intros h l h' Hone Hd;
    cbn in *; [done| |].
  - apply (drains_nil 1 _ _ (GeneratorObject g)).
    by apply (drains_generator_spent g l h).
  - apply drains_delegate_start. apply drains_delegate_start in Hd.
    by apply (IH h l).
Qed.

(** X11. An array, wrapped any number of times, can be gone through again
    and again: each pass gives all its values and leaves the heap as it
    is, and no pass gives anything else. *)
Theorem array_backed_replays iterator h l h' :
  one_shot iterator = false →
  collects iterator h l h' ↔ l = elements_of iterator ∧ h' = h.
Proof.
  intros Hone.
  assert (Hpass : collects iterator h (elements_of iterator) h).
  { unfold collects. clear l h'.
    induction iterator as [elements|g|iterator IH]; cbn in *; [|done|].
    - apply drains_array.
    - apply drains_delegate_start. by apply IH. }
  split.
  - intros Hd. by apply (drains_det _ _ _ _ _ _ Hd Hpass).
  - by intros [-> ->].
Qed.

(** X12. Two transforms made from the same generator object share it, as
    the methods [map] and [filter] of one object made by [wrap] do: once
    the result of the one has been gone through to the end, the result of
    the other gives nothing. *)
Theorem transforms_share_source g mapFn filterFn h l h' :
  wf h → g < length h →
  collects (map (Generator g) mapFn h).1
    (filter_1 (Generator g) filterFn (map (Generator g) mapFn h).2).2 l h' →
  collects (filter_1 (Generator g) filterFn (map (Generator g) mapFn h).2).1
    h' [] (<[S (length h) := Completed]> h').
Proof.
  intros Hwf Hg. cbn [map filter_1 fst snd]. unfold collects, wrap.
  cbn [Symbol_iterator]. rewrite !drains_delegate_start. cbn [Symbol_iterator].
  set (A := SuspendedStart (baseMap mapFn) (Generator g)).
  set (B := SuspendedStart (baseFilter filterFn) (Generator g)).
  set (n := length h). set (H := (h ++ [A]) ++ [B]).
  assert (HlenA : length (h ++ [A]) = S n) by (rewrite length_app; cbn; lia).
  rewrite HlenA.
  assert (HlenH : length H = S (S n)) by (unfold H; rewrite length_app; cbn; lia).
  assert (HwfH : wf H).
  { apply wf_app; [apply wf_app; [done|]|]; cbn; lia. }
  assert (HA : H !! n = Some A).
  { unfold H. rewrite lookup_app_l by lia. by apply list_lookup_middle. }
  assert (HB : H !! S n = Some B).
  { unfold H. apply list_lookup_middle. lia. }
  destruct (drains_total n (GeneratorObject g) H HwfH Hg) as (l0 & H0 & Hd0).
  destruct (drains_wf n (GeneratorObject g) _ _ _ HwfH Hg Hd0) as [Hwf0 Hlen0].
  intros Hda.
  pose proof (drains_transform n _ _ _ _ _ HwfH HA Hd0) as Hda'.
  destruct (drains_det _ _ _ _ _ _ Hda Hda') as [_ ->].
  apply (drains_transform (S n) (baseFilter filterFn) (Generator g) _ []).
  - apply wf_insert; [done|]. by cbn.
  - rewrite list_lookup_insert_ne by lia.
    rewrite (drains_above (S n) (GeneratorObject g) H l0 H0); try done; [lia|].
    cbn. lia.
  - cbn [Symbol_iterator]. apply (drains_nil 1 _ _ (GeneratorObject g)).
    apply next_insert; [done|lia|done|].
    by apply (drains_generator_spent g l0 H).
Qed.

(** X13. Going through an iterable made from arrays, finite generator
    objects and the functions of this file always comes to an end, and
    leaves a heap of the same kind and size, on which the functions can be
    used again. *)
Theorem collects_total iterator h :
  wf h → iterable_below (length h) iterator →
  ∃ l h', collects iterator h l h' ∧ wf h' ∧ length h' = length h.
Proof.
  intros Hwf Hb. pose proof (Symbol_iterator_below _ _ Hb) as Hc.
  destruct (drains_total _ _ h Hwf Hc) as (l & h' & Hd).
  exists l, h'. split; [done|]. by apply (drains_wf _ _ _ _ _ Hwf Hc Hd).
Qed.

(** X14. [map] works in step with its iterator: the first value asked of
    the result takes one value from the iterator, no more, and is [mapFn]
    of that value and index 0; the values not asked for stay where they
    were. *)
Theorem map_in_step iterator mapFn h fuel value c' h1 :
  wf h → iterable_below (length h) iterator →
  next fuel (Symbol_iterator iterator) h = Some (Some value, c', h1) →
  ∃ fuel' c'',
    next fuel' (Symbol_iterator (map iterator mapFn h).1)
      (map iterator mapFn h).2
    = Some (Some (mapFn value 0), c'',
            h1 ++ [SuspendedYield (baseMap mapFn) c' 1]).
Proof.
  intros Hwf Hb Hn. pose proof (Symbol_iterator_below _ _ Hb) as Hc.
  pose proof (next_length _ _ _ _ _ _ Hn) as Hlen.
  exists (S (S (S (S fuel)))), (DelegateYield (GeneratorObject (length h))).
  cbn [map fst snd wrap Symbol_iterator].
  set (b := baseMap mapFn).
  assert (Hgen : next (S (S fuel)) (GeneratorObject (length h))
                   (h ++ [SuspendedStart b iterator])
                 = Some (Some (mapFn value 0), GeneratorObject (length h),
                         h1 ++ [SuspendedYield b c' 1])).
  { remember (S fuel) as n eqn:En. cbn [next].
    rewrite list_lookup_middle by done.
    rewrite insert_app_r_alt by lia. rewrite Nat.sub_diag. cbn [insert list_insert].
    subst n. cbn [next]. rewrite list_lookup_middle by done.
    rewrite (next_app _ _ _ _ _ _ _ Hwf Hc Hn). cbn zeta.
    rewrite insert_app_r_alt by lia. rewrite Hlen, Nat.sub_diag. done. }
  remember (S (S fuel)) as n eqn:En. cbn [next Symbol_iterator].
  by rewrite Hgen.
Qed.

Lemma wf_external rest : wf [External rest].
Proof. by intros [|[|g]] cell [= <-]. Qed.

Lemma wrap_collects_witness :
  collects (wrap (Array [Val 1; Val 2])) [] [Val 1; Val 2] [].
Proof.
  apply (wrap_collects (Array [Val 1; Val 2]) [] [Val 1; Val 2] []).
  exists 10. reflexivity.
Defined.

Lemma map_collects_witness :
  collects (map (Generator 0) (λ _ idx, Val idx) [External [Val 5; Val 7]]).1
    (map (Generator 0) (λ _ idx, Val idx) [External [Val 5; Val 7]]).2
    [Val 0; Val 1] [External []; Completed].
Proof.
  apply (map_collects (Generator 0) (λ _ idx, Val idx)
           [External [Val 5; Val 7]] [Val 5; Val 7] [External []]).
  - apply wf_external.
  - cbn. lia.
  - exists 10. reflexivity.
Defined.

Lemma filter_collects_witness :
  collects
    (filter_1 (Array [Val 4; Val 0; Val 2; Val 3])
       (λ value idx, bool_decide (value = Val idx)) []).1
    (filter_1 (Array [Val 4; Val 0; Val 2; Val 3])
       (λ value idx, bool_decide (value = Val idx)) []).2
    [Val 2; Val 3] [Completed].
Proof.
  refine (filter_collects (Array [Val 4; Val 0; Val 2; Val 3])
            (λ value idx, bool_decide (value = Val idx)) []
            [Val 4; Val 0; Val 2; Val 3] [] _ _ _).
  - apply wf_nil.
  - exact I.
  - exists 10. reflexivity.
Defined.

Lemma reduce_result_witness :
  reduces (Generator 0) (λ _ _ idx, Val idx) undefined
    [External [Val 5; Val 7; Val 9]] (Val 2) [External []].
Proof.
  apply (reduce_result (Generator 0) (λ _ _ idx, Val idx) undefined
           [External [Val 5; Val 7; Val 9]] [Val 5; Val 7; Val 9]
           [External []]).
  exists 10. reflexivity.
Defined.

Lemma second_pass_empty_witness :
  collects (wrap (Generator 0)) [Completed] [] [Completed].
Proof.
  apply (second_pass_empty (wrap (Generator 0))
           [SuspendedStart (baseMap (λ value _, value)) (Array [Val 1])]
           [Val 1] [Completed]).
  - reflexivity.
  - exists 10. reflexivity.
Defined.

Lemma array_backed_replays_witness :
  collects (wrap (wrap (Array [Val 1]))) [Completed] [Val 1] [Completed].
Proof.
  apply (array_backed_replays (wrap (wrap (Array [Val 1]))) [Completed]
           [Val 1] [Completed]).
  - reflexivity.
  - split; reflexivity.
Defined.

Lemma transforms_share_source_witness :
  collects (wrap (Generator 2))
    [External []; Completed;
     SuspendedStart (baseFilter (λ _ _, true)) (Generator 0)]
    []
    [External []; Completed; Completed].
Proof.
  apply (transforms_share_source 0 (λ value _, value) (λ _ _, true)
           [External [Val 1; Val 2]] [Val 1; Val 2]
           [External []; Completed;
            SuspendedStart (baseFilter (λ _ _, true)) (Generator 0)]).
  - apply wf_external.
  - cbn. lia.
  - exists 10. reflexivity.
Defined.

Lemma collects_total_witness :
  ∃ l h', collects (Generator 0) [External [Val 1]] l h' ∧ wf h' ∧
    length h' = length [External [Val 1]].
Proof.
  apply (collects_total (Generator 0) [External [Val 1]]).
  - apply wf_external.
  - cbn. lia.
Defined.

Lemma map_in_step_witness :
  ∃ fuel' c'',
    next fuel'
      (Symbol_iterator
         (map (Generator 0) (λ _ idx, Val idx) [External [Val 5; Val 7]]).1)
      (map (Generator 0) (λ _ idx, Val idx) [External [Val 5; Val 7]]).2
    = Some (Some (Val 0), c'',
            [External [Val 7]]
            ++ [SuspendedYield (baseMap (λ _ idx, Val idx)) (GeneratorObject 0) 1]).
Proof.
  apply (map_in_step (Generator 0) (λ _ idx, Val idx)
           [External [Val 5; Val 7]] 1 (Val 5) (GeneratorObject 0)
           [External [Val 7]]).
  - apply wf_external.
  - cbn. lia.
  - reflexivity.
Defined.

End IteratorFacts.

(** ** Facts about the use of the slots *)

Module SchedulingFacts.
Import Queue QueueFacts Scheduling.

Lemma waiting_not_running (s : state) (a : action) (t : handle) :
  wf s → distinct_inv s → (a, t) ∈ queue s → a ∉ running s.
Proof.
  intros Hwf Hdi Hin Hrun.
  destruct (wf_running _ Hwf a Hrun) as (c & Hc & <- & Hact).
  pose proof (di_nodup _ Hdi) as Hnd. unfold live, in_flight in Hnd.
  apply NoDup_app in Hnd as (_ & Hdisj & _).
  apply (Hdisj (ch_action c)).
  - by apply active_action_elem.
  - apply list_elem_of_fmap. by exists (ch_action c, t).
Qed.

Lemma triggers_run (k : Z) (s : state) : triggers (run k s) = triggers s.
Proof.
  by destruct (run_cases k s) as [[_ ->]|[(a & t & q & _ & _ & _ & ->)|
    (a & t & q & h & _ & _ & _ & ->)]].
Qed.

Lemma covered_run (k m : Z) (s : state) :
  wf s → distinct_inv s → (0 ≤ m)%Z →
  (Z.of_nat (length (queue s)) ≤ m + 1 ∨
   k - Z.of_nat (size (running s)) ≤ m + 1)%Z →
  (Z.of_nat (length (queue (run k s))) ≤ m ∨
   k - Z.of_nat (size (running (run k s))) ≤ m)%Z.
Proof.
  intros Hwf Hdi Hm Hpre.
  destruct (di_run_cases k s Hdi) as [[[Hfull|Hempty] ->]|
    (a & t & q & Hfree & Hq & ->)].
  - right. lia.
  - left. rewrite Hempty. cbn. lia.
  - proj. rewrite Hq in Hpre. cbn [length] in Hpre.
    assert (Hnew : a ∉ running s).
    { apply (waiting_not_running s a t); [done..|]. rewrite Hq. by left. }
    rewrite size_union by (by apply disjoint_singleton_l).
    rewrite size_singleton. lia.
Qed.

Lemma covered_step (k : Z) (ev : event) (s : state) :
  wf s → distinct_inv s → flights_running s → covered k s →
  covered k (step k ev s).
Proof.
  unfold covered. intros Hwf Hdi Hfl Hcov.
  destruct ev as [a| | |i|i o|i]; cbn [step].
  - unfold push. proj. rewrite length_app. cbn [length]. lia.
  - left. unfold clear. proj. cbn. lia.
  - destruct (triggers s) as [|n] eqn:Ht; cbv iota; [by rewrite Ht|].
    rewrite triggers_run. proj.
    apply covered_run;
      [by apply wf_set_triggers|by apply di_set_triggers|lia|proj; lia].
  - destruct (chains s !! i) as [c|] eqn:Hi; [|done].
    destruct (ch_phase c) eqn:Hph; try done. by case_decide.
  - destruct (chains s !! i) as [c|] eqn:Hi; [|done].
    by destruct (ch_phase c) eqn:Hph.
  - destruct (chains s !! i) as [c|] eqn:Hi; [|done].
    destruct (ch_phase c) eqn:Hph; try done.
    unfold cleanup. rewrite triggers_run. proj.
    assert (Hrun : ch_action c ∈ running s).
    { apply Hfl; [by eapply list_elem_of_lookup_2|].
      unfold active. by rewrite Hph. }
    assert (Hsize : size (running s) = S (size (running s ∖ {[ch_action c]}))).
    { rewrite size_difference by (by apply singleton_subseteq_l).
      rewrite size_singleton.
      assert (size (running s) ≠ 0); [|lia].
      intros Hz%size_empty_inv. by apply (Hz (ch_action c)) in Hrun. }
    apply covered_run; [by apply wf_finish|by apply di_finish|lia|proj; lia].
Qed.

(** X15. Along a run in which no callable is pushed while an occurrence
    of it waits or is in flight, the set that [running()] copies holds
    exactly the callables of the chains whose [cleanup] has not run, each of
    them once: its size is the number of tasks in flight. *)
Theorem running_lists_tasks_in_flight (k : Z) (tr : list event) :
  no_repush k tr init = true →
  let s := exec k tr init in
  (∀ a, a ∈ running_snapshot s ↔
        ∃ c, c ∈ chains s ∧ ch_action c = a ∧ active c) ∧
  size (running_snapshot s) = length (in_flight s).
Proof.
  intros Hnr s. unfold running_snapshot.
  destruct (distinct_run_ind k flights_running) with tr init
    as (Hwf & Hdi & Hfl);
    [|done|apply wf_init|apply di_init|by intros c Hc%elem_of_nil|].
  { intros ev s'. apply flights_step. }
  fold s in Hwf, Hdi, Hfl.
  assert (Hiff : ∀ a, a ∈ running s ↔
            ∃ c, c ∈ chains s ∧ ch_action c = a ∧ active c).
  { intros a. split; [by apply wf_running|].
    intros (c & Hc & <- & Hact). by apply Hfl. }
  split; [done|].
  pose proof (di_nodup _ Hdi) as Hnd. unfold live in Hnd.
  apply NoDup_app in Hnd as (Hnd & _ & _).
  rewrite <-(length_fmap ch_action).
  rewrite <-(size_list_to_set (C := gset action) _ Hnd). f_equal.
  apply set_eq. intros a. rewrite Hiff, elem_of_list_to_set, list_elem_of_fmap.
  unfold in_flight. split.
  - intros (c & Hc & <- & Hact). exists c. split; [done|].
    by apply list_elem_of_filter.
  - intros (c & -> & [Hact Hc]%list_elem_of_filter). by exists c.
Qed.

(** X16. Along a run in which no callable is pushed while an occurrence
    of it waits or is in flight, the slots are put to use: the waiting
    callables, or else the free slots, are no more than the calls of [run]
    still to come from [push].  So when no such call is to come and a
    callable waits, the running set is full. *)
Theorem free_slot_has_run_to_come (k : Z) (tr : list event) :
  no_repush k tr init = true →
  let s := exec k tr init in
  covered k s ∧
  (triggers s = 0 → queue s ≠ [] →
   (k ≤ Z.of_nat (size (running_snapshot s)))%Z).
Proof.
  intros Hnr s.
  destruct (distinct_run_ind k (λ s, flights_running s ∧ covered k s))
    with tr init as (Hwf & Hdi & Hfl & Hcov);
    [|done|apply wf_init|apply di_init| |].
  { intros ev s' Hwf' Hdi' [Hfl' Hcov']. split.
    - by apply flights_step.
    - by apply covered_step. }
  { split; [by intros c Hc%elem_of_nil|]. left. cbn. lia. }
  fold s in Hcov. split; [done|].
  intros Ht Hq. unfold covered in Hcov. rewrite Ht in Hcov.
  unfold running_snapshot. destruct (queue s); [done|]. cbn [length] in Hcov.
  lia.
Qed.

Lemma running_lists_tasks_in_flight_witness :
  let s := exec 2 [Push 0; Push 1; Push 2; Tick; Tick; Tick; Invoke 0;
                   Settle 0 (Fulfilled 5); Cleanup 0] init in
  (∀ a, a ∈ running_snapshot s ↔
        ∃ c, c ∈ chains s ∧ ch_action c = a ∧ active c) ∧
  size (running_snapshot s) = length (in_flight s).
Proof.
  apply (running_lists_tasks_in_flight 2). reflexivity.
Defined.

Lemma free_slot_has_run_to_come_witness :
  let s := exec 1 [Push 0; Push 1; Push 2; Tick; Tick; Tick; Invoke 0;
                   Settle 0 (Fulfilled 5); Cleanup 0] init in
  covered 1 s ∧
  (triggers s = 0 → queue s ≠ [] →
   (1 ≤ Z.of_nat (size (running_snapshot s)))%Z).
Proof.
  apply (free_slot_has_run_to_come 1). reflexivity.
Defined.

End SchedulingFacts.
